(** * Producer-consumer pipeline of [producer-consumer/cpp/main.cpp]

    One producer thread pushes the entries of a random permutation into a
    mutex-protected deque; a pool of consumer threads pops them, computes a
    Fibonacci number for each and stores it at the entry's position of a
    result array.  The threads are embedded as program counters over the
    statements of [consumer] and [producer]; a schedule (a list of thread
    choices) drives the interleaving, and every statement that touches the
    shared [Buffer] is one step.

    Left out: [sync_printf] (output only), and the random sleeps of the
    producer with the seed of the generator (timing only; the schedules range
    over all interleavings anyway). *)

From Stdlib Require Import ZArith Lia List Bool.
From Equations Require Import Equations.
From stdpp Require Import base list.

Open Scope Z_scope.

(** ** Constants *)

Definition NUM_CONSUMERS : nat := 8.
Definition DATA_START : Z := 30.
Definition DATA_END : Z := 45.
Definition DATA_LENGTH : Z := DATA_END - DATA_START.

(** ** [int] arithmetic: 32 bits, two's complement wrap-around

    Signed overflow is undefined in C++; it is written out here as the usual
    wrap-around.  The keys of this program stay far below it. *)

Definition wrap (z : Z) : Z := (z + 2 ^ 31) mod 2 ^ 32 - 2 ^ 31.

Definition int_add (a b : Z) : Z := wrap (a + b).

(** ** Helper functions *)

(** [fibonacci]: [None] is the failure of [assert (n >= 1)]. *)
Equations? fibonacci (n : Z) : option Z by wf (Z.to_nat n) lt :=
  fibonacci n with Z_lt_dec n 1 => {
    | left _ := None;
    | right _ with Z_le_dec n 2 => {
      | left _ := Some 1;
      | right _ :=
          match fibonacci (n - 1), fibonacci (n - 2) with
          | Some a, Some b => Some (int_add a b)
          | _, _ => None
          end } }.
Proof. all: lia. Qed.

(** The vector filled by [for (int i = 0; i < length; ++i) v.push_back(i)]. *)
Definition iota (length : Z) : list Z := map Z.of_nat (seq 0 (Z.to_nat length)).

(** [random_permutation]: [std::random_shuffle] is the library's; it is taken
    as a function that rearranges its argument. *)
Definition random_permutation (random_shuffle : list Z -> list Z) (length : Z)
  : list Z :=
  random_shuffle (iota length).

(** ** Data structures *)

Record BufferEntry := mkEntry { position : Z; number : Z }.

(** [Buffer]: [mutex] is [true] while some thread owns the lock.  The threads
    blocked on [cond_var] are the consumers whose program counter is
    [CWaiting]. *)
Record Buffer := mkBuffer {
  mutex : bool;
  data : list BufferEntry;
  production_is_finished : bool
}.

#[global] Instance BufferEntry_eq_dec : EqDecision BufferEntry.
Proof. solve_decision. Defined.

Definition lock (b : Buffer) : option Buffer :=
  if mutex b then None
  else Some (mkBuffer true (data b) (production_is_finished b)).

Definition unlock (b : Buffer) : Buffer :=
  mkBuffer false (data b) (production_is_finished b).

(** [buffer.data.push_back(be)] *)
Definition push (b : Buffer) (be : BufferEntry) : Buffer :=
  mkBuffer (mutex b) (data b ++ [be]) (production_is_finished b).

(** [buffer.production_is_finished = true] *)
Definition finish_production (b : Buffer) : Buffer :=
  mkBuffer (mutex b) (data b) true.

(** [buffer.data.empty() && ! buffer.production_is_finished] *)
Definition wait_condition (b : Buffer) : bool :=
  match data b with [] => negb (production_is_finished b) | _ :: _ => false end.

(** ** Threads *)

(** Program counter of a consumer; [do_run] is [true] wherever the loop is
    entered again. *)
Inductive cpc :=
| CLoop                      (* while (do_run): about to take the lock *)
| CCheck                     (* lock held: test of the inner while *)
| CWaiting                   (* blocked in cond_var.wait, lock released *)
| CWoken                     (* unblocked, wait re-acquires the lock *)
| CHandle                    (* lock held: if (buffer.data.empty()) *)
| CWork (be : BufferEntry)   (* lock released: compute and store *)
| CDone.                     (* loop left *)

(** Program counter of the producer; [rest] are the elements of the
    permutation from the iterator to the end. *)
Inductive ppc :=
| PLoop (rest : list Z)            (* it != end ?, then lock *)
| PPush (it : Z) (rest : list Z)   (* lock held: push_back *)
| PNotifyOne (rest : list Z)       (* cond_var.notify_one(); ++it *)
| PFinish                          (* lock held: production_is_finished = true *)
| PNotifyAll                       (* cond_var.notify_all() *)
| PDone.

Inductive tid := TProducer | TConsumer (i : nat).

Inductive fault := AssertFibonacci | OutOfBounds.

Inductive event :=
| EvLock (t : tid)
| EvWait (i : nat)
| EvProceed (i : nat)
| EvWake (i : nat)
| EvPop (i : nat) (be : BufferEntry)
| EvExit (i : nat)
| EvRetry (i : nat)
| EvWrite (i : nat) (pos : Z) (v : Z)
| EvPush (be : BufferEntry)
| EvNotifyOne (woken : option nat)
| EvClose
| EvNotifyAll
| EvAbort (f : fault).

Record State := mkState {
  buffer : Buffer;
  results : list Z;
  producer_pc : ppc;
  consumers : list cpc;
  aborted : bool
}.

Definition with_buffer (b : Buffer) (s : State) : State :=
  mkState b (results s) (producer_pc s) (consumers s) (aborted s).
Definition with_results (r : list Z) (s : State) : State :=
  mkState (buffer s) r (producer_pc s) (consumers s) (aborted s).
Definition with_producer (p : ppc) (s : State) : State :=
  mkState (buffer s) (results s) p (consumers s) (aborted s).
Definition with_consumers (cs : list cpc) (s : State) : State :=
  mkState (buffer s) (results s) (producer_pc s) cs (aborted s).
Definition with_consumer (i : nat) (c : cpc) (s : State) : State :=
  with_consumers (<[i := c]> (consumers s)) s.
Definition abort (s : State) : State :=
  mkState (buffer s) (results s) (producer_pc s) (consumers s) true.

(** [results[p] = v]; [None] when [p] is outside the array. *)
Definition store (r : list Z) (p v : Z) : option (list Z) :=
  if decide (0 <= p < Z.of_nat (length r))
  then Some (<[Z.to_nat p := v]> r) else None.

Definition is_waiting (c : cpc) : bool :=
  match c with CWaiting => true | _ => false end.

Definition wake (c : cpc) : cpc :=
  match c with CWaiting => CWoken | _ => c end.

(** [cond_var.notify_all()] *)
Definition notify_all (cs : list cpc) : list cpc := map wake cs.

(** [cond_var.notify_one()]: [pick] is the blocked thread the library
    chooses; without blocked threads the call does nothing. *)
Definition notify_one (pick : nat) (cs : list cpc)
  : option (option nat * list cpc) :=
  match cs !! pick with
  | Some CWaiting => Some (Some pick, <[pick := CWoken]> cs)
  | _ => if existsb is_waiting cs then None else Some (None, cs)
  end.

(** *** The consumer, one statement at a time *)
Definition consumer_step (i : nat) (c : cpc) (s : State)
  : option (event * State) :=
  let b := buffer s in
  match c with
  | CLoop | CWoken =>
      match lock b with
      | None => None
      | Some b' =>
          Some (EvLock (TConsumer i), with_consumer i CCheck (with_buffer b' s))
      end
  | CCheck =>
      if wait_condition b
      then Some (EvWait i, with_consumer i CWaiting (with_buffer (unlock b) s))
      else Some (EvProceed i, with_consumer i CHandle s)
  | CWaiting => None
  | CHandle =>
      match data b with
      | [] =>
          let do_run := negb (production_is_finished b) in
          Some (if do_run then EvRetry i else EvExit i,
                with_consumer i (if do_run then CLoop else CDone)
                  (with_buffer (unlock b) s))
      | be :: rest =>
          Some (EvPop i be,
                with_consumer i (CWork be)
                  (with_buffer
                     (unlock (mkBuffer (mutex b) rest (production_is_finished b)))
                     s))
      end
  | CWork be =>
      match fibonacci (number be) with
      | None => Some (EvAbort AssertFibonacci, abort s)
      | Some fib_result =>
          match store (results s) (position be) fib_result with
          | None => Some (EvAbort OutOfBounds, abort s)
          | Some r' =>
              Some (EvWrite i (position be) fib_result,
                    with_consumer i CLoop (with_results r' s))
          end
      end
  | CDone => None
  end.

(** *** The producer, one statement at a time *)
Definition entry_of (it : Z) : BufferEntry := mkEntry it (int_add DATA_START it).

Definition producer_step (pick : nat) (s : State) : option (event * State) :=
  let b := buffer s in
  match producer_pc s with
  | PLoop rest =>
      match lock b with
      | None => None
      | Some b' =>
          Some (EvLock TProducer,
                with_producer
                  (match rest with [] => PFinish | it :: rest' => PPush it rest' end)
                  (with_buffer b' s))
      end
  | PPush it rest =>
      Some (EvPush (entry_of it),
            with_producer (PNotifyOne rest)
              (with_buffer (unlock (push b (entry_of it))) s))
  | PNotifyOne rest =>
      match notify_one pick (consumers s) with
      | None => None
      | Some (w, cs') =>
          Some (EvNotifyOne w, with_producer (PLoop rest) (with_consumers cs' s))
      end
  | PFinish =>
      Some (EvClose,
            with_producer PNotifyAll
              (with_buffer (unlock (finish_production b)) s))
  | PNotifyAll =>
      Some (EvNotifyAll,
            with_producer PDone (with_consumers (notify_all (consumers s)) s))
  | PDone => None
  end.

(** *** Interleaving *)

(** A scheduler choice: the producer runs its next statement ([pick] is used
    by [notify_one] only), consumer [i] runs its next statement, or the
    blocked consumer [i] wakes up spuriously. *)
Inductive action :=
| Prod (pick : nat)
| Cons (i : nat)
| Spurious (i : nat).

Definition step (a : action) (s : State) : option (event * State) :=
  if aborted s then None
  else
    match a with
    | Prod pick => producer_step pick s
    | Cons i =>
        match consumers s !! i with
        | Some c => consumer_step i c s
        | None => None
        end
    | Spurious i =>
        match consumers s !! i with
        | Some CWaiting => Some (EvWake i, with_consumer i CWoken s)
        | _ => None
        end
    end.

Fixpoint run (sched : list action) (s : State) : option (list event * State) :=
  match sched with
  | [] => Some ([], s)
  | a :: sched' =>
      match step a s with
      | None => None
      | Some (e, s1) =>
          match run sched' s1 with
          | None => None
          | Some (tr, s2) => Some (e :: tr, s2)
          end
      end
  end.

(** *** [main] *)

(** The state once [main] has started its threads: [n] consumers and the
    producer at their first statement, the buffer empty and open. *)
Definition init (n : nat) (permutation : list Z) (results0 : list Z) : State :=
  mkState (mkBuffer false [] false) results0 (PLoop permutation)
          (replicate n CLoop) false.

Definition main_init (random_shuffle : list Z -> list Z) (results0 : list Z)
  : State :=
  init NUM_CONSUMERS (random_permutation random_shuffle DATA_LENGTH) results0.

Definition is_done (c : cpc) : bool :=
  match c with CDone => true | _ => false end.

(** All threads can be joined. *)
Definition joined (s : State) : bool :=
  match producer_pc s with PDone => true | _ => false end
  && forallb is_done (consumers s).

Definition at_index (r : list Z) (i : Z) : Z := nth (Z.to_nat i) r 0.

(** The assertions that follow the joins; [None] when [fibonacci] itself
    aborts. *)
Definition recurrence_ok (r : list Z) (i : Z) : bool :=
  int_add (at_index r (i - 2)) (at_index r (i - 1)) =? at_index r i.

Definition check_results (r : list Z) : option bool :=
  match fibonacci DATA_START return option bool with
  | None => None
  | Some f0 =>
      match fibonacci (DATA_START + 1) return option bool with
      | None => None
      | Some f1 =>
          Some ((at_index r 0 =? f0) && (at_index r 1 =? f1)
                && forallb (recurrence_ok r)
                     (map (fun k : nat => Z.of_nat k + 2)
                        (seq 0 (Z.to_nat (DATA_LENGTH - 2)))))
      end
  end.

(** * Facts about [fibonacci] *)

Lemma fibonacci_body (n : Z) :
  fibonacci n =
  if Z_lt_dec n 1 then None
  else if Z_le_dec n 2 then Some 1
       else match fibonacci (n - 1), fibonacci (n - 2) with
            | Some a, Some b => Some (int_add a b)
            | _, _ => None
            end.
Proof.
  rewrite fibonacci_equation_1.
  destruct (Z_lt_dec n 1); simpl; [reflexivity |].
  destruct (Z_le_dec n 2); reflexivity.
Qed.

(** The pair [(fibonacci (k+1), fibonacci (k+2))], computed by iteration. *)
Fixpoint fib_pair (k : nat) : Z * Z :=
  match k with
  | O => (1, 1)
  | S k' => let '(a, b) := fib_pair k' in (b, int_add b a)
  end.

Definition fib_iter (n : Z) : option Z :=
  if Z_lt_dec n 1 then None else Some (fst (fib_pair (Z.to_nat (n - 1)))).

Lemma fibonacci_pair (k : nat) :
  fibonacci (Z.of_nat k + 1) = Some (fst (fib_pair k))
  /\ fibonacci (Z.of_nat k + 2) = Some (snd (fib_pair k)).
Proof.
  induction k as [|k [IH1 IH2]].
  - split; rewrite fibonacci_body; reflexivity.
  - replace (Z.of_nat (S k) + 1) with (Z.of_nat k + 2) by lia.
    simpl fib_pair. destruct (fib_pair k) as [a b] eqn:E. simpl in *.
    split; [exact IH2 |].
    rewrite fibonacci_body.
    destruct (Z_lt_dec _ 1); [lia |]. destruct (Z_le_dec _ 2); [lia |].
    replace (Z.of_nat (S k) + 2 - 1) with (Z.of_nat k + 2) by lia.
    replace (Z.of_nat (S k) + 2 - 2) with (Z.of_nat k + 1) by lia.
    rewrite IH1, IH2. reflexivity.
Qed.

Lemma fibonacci_iter (n : Z) : fibonacci n = fib_iter n.
Proof.
  unfold fib_iter. destruct (Z_lt_dec n 1) as [Hlt | Hge].
  - rewrite fibonacci_body. destruct (Z_lt_dec n 1); [reflexivity | lia].
  - destruct (fibonacci_pair (Z.to_nat (n - 1))) as [H _].
    replace (Z.of_nat (Z.to_nat (n - 1)) + 1) with n in H by lia. exact H.
Qed.

Lemma fibonacci_total (n : Z) : 1 <= n -> exists v, fibonacci n = Some v.
Proof.
  intros Hn. rewrite fibonacci_iter. unfold fib_iter.
  destruct (Z_lt_dec n 1); [lia | eauto].
Qed.

(** * Stepping: case analysis and generic facts about runs *)

Ltac unfold_step :=
  unfold step, producer_step, consumer_step, notify_one, lock, store,
    with_consumer, with_consumers, with_producer, with_buffer, with_results,
    abort, unlock, push, finish_production in *.

(** Splits a hypothesis [step a s = Some (e, s')] into one goal per statement
    that can have run. *)
Ltac step_cases H :=
  unfold_step;
  repeat
    (match type of H with
     | context [match ?x with _ => _ end] =>
         lazymatch x with
         | context [match _ with _ => _ end] => fail
         | _ => let E := fresh "E" in destruct x eqn:E
         end
     end; try discriminate H);
  injection H as <- <-; simpl in *.

Lemma run_cons (a : action) (sched : list action) (s : State) tr s' :
  run (a :: sched) s = Some (tr, s') <->
  exists e s1 tr1,
    step a s = Some (e, s1) /\ run sched s1 = Some (tr1, s') /\ tr = e :: tr1.
Proof.
  simpl. split.
  - destruct (step a s) as [[e s1]|]; [| discriminate].
    destruct (run sched s1) as [[tr1 s2]|] eqn:Hrun; [| discriminate].
    intros [= <- <-]. eauto 6.
  - intros (e & s1 & tr1 & -> & -> & ->). reflexivity.
Qed.

Section RunInvariant.
Variable Inv : State -> Prop.
Variable Good : event -> Prop.
Hypothesis step_preserves :
  forall a s e s', Inv s -> step a s = Some (e, s') -> Inv s' /\ Good e.

Lemma run_invariant (sched : list action) (s : State) tr s' :
  Inv s -> run sched s = Some (tr, s') -> Inv s' /\ Forall Good tr.
Proof using step_preserves.
  revert s tr. induction sched as [|a sched IH]; intros s tr HI Hrun.
  - injection Hrun as <- <-. auto.
  - apply run_cons in Hrun as (e & s1 & tr1 & Hs & Hr & ->).
    destruct (step_preserves _ _ _ _ HI Hs) as [HI1 Hg].
    destruct (IH _ _ HI1 Hr) as [HI' Hall]. auto.
Qed.
End RunInvariant.

(** ** Invariant: the flag follows the producer *)

Definition closing (p : ppc) : bool :=
  match p with PNotifyAll | PDone => true | _ => false end.

Definition flag_inv (s : State) : Prop :=
  production_is_finished (buffer s) = closing (producer_pc s).

Lemma flag_inv_step a s e s' :
  flag_inv s -> step a s = Some (e, s') -> flag_inv s'.
Proof.
  unfold flag_inv. intros HI H. step_cases H; try rewrite E0 in *; auto.
Qed.

(** ** Lists of consumers *)

Lemma elem_insert_inv {A} (l : list A) (i : nat) (x y : A) :
  x ∈ <[i := y]> l -> x = y \/ x ∈ l.
Proof.
  intros Hin. apply list_elem_of_lookup in Hin as [j Hj].
  apply list_lookup_insert_Some in Hj as [(-> & -> & _) | [_ Hj]]; [auto |].
  right. eapply list_elem_of_lookup_2, Hj.
Qed.

Lemma elem_insert_ne {A} (l : list A) (i : nat) (old new x : A) :
  l !! i = Some old -> x <> old -> x ∈ l -> x ∈ <[i := new]> l.
Proof.
  intros Hi Hne Hin. apply list_elem_of_lookup in Hin as [j Hj].
  apply list_elem_of_lookup. exists j.
  rewrite list_lookup_insert_ne; [exact Hj |].
  intros ->. congruence.
Qed.

Lemma elem_insert_new {A} (l : list A) (i : nat) (old new : A) :
  l !! i = Some old -> new ∈ <[i := new]> l.
Proof. intros Hi. apply list_elem_of_insert. eapply lookup_lt_Some, Hi. Qed.

Lemma elem_notify_all (c : cpc) (cs : list cpc) :
  c ∈ notify_all cs -> c = CWoken \/ c ∈ cs.
Proof.
  unfold notify_all. intros Hin.
  apply list_elem_of_fmap in Hin as (c0 & -> & Hin).
  destruct c0; simpl; auto.
Qed.

Lemma notify_all_keeps (c : cpc) (cs : list cpc) :
  c <> CWaiting -> c ∈ cs -> c ∈ notify_all cs.
Proof.
  intros Hne Hin. unfold notify_all. apply list_elem_of_fmap.
  exists c. split; [destruct c; simpl; congruence | exact Hin].
Qed.

(** Reduces a membership in an updated consumer list to the old list. *)
Ltac elem_old H :=
  first
    [ apply elem_insert_inv in H as [H | H]; [try discriminate H |]
    | apply elem_notify_all in H as [H | H]; [try discriminate H |] ].

(** ** Invariant: a consumer leaves only a drained, closed buffer *)

Definition done_inv (s : State) : Prop :=
  CDone ∈ consumers s ->
  data (buffer s) = [] /\ production_is_finished (buffer s) = true.

Lemma done_inv_step a s e s' :
  flag_inv s -> done_inv s -> step a s = Some (e, s') -> done_inv s'.
Proof.
  unfold flag_inv, done_inv. intros HF HI H.
  step_cases H; intros Hin; try elem_old Hin; auto;
    try (destruct (HI Hin) as [Hd Hf]; rewrite ?Hd, ?Hf in *; simpl in *;
         auto; congruence).
  split; [reflexivity |]. apply negb_false_iff. assumption.
Qed.

(** ** Invariant: entries are well formed and stores stay inside the array *)

(** What the producer still has to push. *)
Definition todo (p : ppc) : list Z :=
  match p with
  | PLoop rest | PNotifyOne rest => rest
  | PPush it rest => it :: rest
  | PFinish | PNotifyAll | PDone => []
  end.

Definition in_range (p : Z) : Prop := 0 <= p < DATA_LENGTH.

Definition good_entry (be : BufferEntry) : Prop :=
  in_range (position be) /\ number be = DATA_START + position be.

Definition good_cpc (c : cpc) : Prop :=
  match c with CWork be => good_entry be | _ => True end.

Definition good_event (e : event) : Prop :=
  match e with
  | EvAbort _ => False
  | EvWrite _ p v => in_range p /\ fibonacci (DATA_START + p) = Some v
  | EvPop _ be | EvPush be => good_entry be
  | _ => True
  end.

Definition wf_inv (s : State) : Prop :=
  Forall in_range (todo (producer_pc s))
  /\ Forall good_entry (data (buffer s))
  /\ Forall good_cpc (consumers s)
  /\ length (results s) = Z.to_nat DATA_LENGTH
  /\ aborted s = false.

Lemma good_entry_of (it : Z) : in_range it -> good_entry (entry_of it).
Proof.
  unfold in_range, good_entry, entry_of, int_add, wrap, DATA_LENGTH, DATA_END,
    DATA_START.
  simpl. intros Hr. split; [exact Hr |].
  rewrite Z.mod_small; lia.
Qed.

Lemma good_notify_all (cs : list cpc) :
  Forall good_cpc cs -> Forall good_cpc (notify_all cs).
Proof.
  unfold notify_all. intros H. apply Forall_fmap.
  eapply Forall_impl; [exact H |]. intros [] Hc; simpl; auto.
Qed.

Lemma good_entry_fibonacci (be : BufferEntry) :
  good_entry be -> fibonacci (number be) <> None.
Proof.
  intros [[Hlo _] Hn]. destruct (fibonacci_total (number be)) as [v Hv].
  - rewrite Hn. unfold DATA_START. lia.
  - congruence.
Qed.

Lemma wf_inv_step a s e s' :
  wf_inv s -> step a s = Some (e, s') -> wf_inv s' /\ good_event e.
Proof.
  unfold wf_inv. intros (Ht & Hd & Hc & Hl & Ha) H.
  step_cases H.
  all: repeat match goal with
         | H : Forall _ (_ :: _) |- _ => apply Forall_cons in H as [? ?]
         end.
  all: try solve
         [ repeat split;
           auto using Forall_insert, good_notify_all, good_entry_of, Forall_app_2 ].
  all: try solve
         [ repeat split; auto;
           try apply Forall_insert; try apply Forall_app_2; simpl;
           auto using good_entry_of ].
  all: refine (conj (conj _ (conj _ (conj _ (conj _ _)))) _); simpl; auto.
  all: try (pose proof (Forall_lookup_1 _ _ _ _ Hc E1) as Hg; simpl in Hg).
  all: try (apply Forall_insert; simpl; now auto).
  - apply Forall_app_2; [exact Hd |].
    constructor; [apply good_entry_of; assumption | constructor].
  - apply good_entry_of; assumption.
  - rewrite length_insert. exact Hl.
  - destruct Hg as [Hr Hn]. rewrite <- Hn. auto.
  - destruct Hg as [Hr Hn]. destruct (decide _) as [|Hout];
      [discriminate | exfalso; apply Hout; unfold in_range in Hr; lia].
  - destruct Hg as [Hr Hn]. destruct (decide _) as [|Hout];
      [discriminate | exfalso; apply Hout; unfold in_range in Hr; lia].
  - apply good_entry_fibonacci in Hg. congruence.
  - apply good_entry_fibonacci in Hg. congruence.
Qed.

(** ** Invariant: every slot is still owed or already holds its result *)

Definition pending (s : State) (p : Z) : Prop :=
  p ∈ todo (producer_pc s)
  \/ (exists be, be ∈ data (buffer s) /\ position be = p)
  \/ (exists be, CWork be ∈ consumers s /\ position be = p).

Definition results_inv (s : State) : Prop :=
  forall p, in_range p ->
    pending s p \/ results s !! Z.to_nat p = fibonacci (DATA_START + p).

Lemma results_inv_step a s e s' :
  wf_inv s -> results_inv s -> step a s = Some (e, s') -> results_inv s'.
Proof.
  unfold results_inv, pending. intros Hwf HI H p Hp.
  destruct Hwf as (_ & _ & Hc & Hl & _).
  step_cases H.
  all: destruct (HI p Hp) as [[Ht | [(b0 & Hb & Hpos) | (b0 & Hcw & Hpos)]] | Hr].
  all: try solve [right; exact Hr].
  all: try solve [left; left; exact Ht].
  all: try solve [left; right; left; eauto].
  all: try solve
         [ left; right; right; exists b0; split; [| exact Hpos];
           first [ exact Hcw
                 | eapply elem_insert_ne; eauto; discriminate
                 | apply notify_all_keeps; [discriminate | exact Hcw] ] ].
  - apply elem_of_cons in Ht as [-> | Ht]; [| auto].
    left; right; left. exists (entry_of it). split; [| reflexivity].
    apply elem_of_app. right. apply list_elem_of_singleton. reflexivity.
  - left; right; left. exists b0. split; [| exact Hpos].
    apply elem_of_app. left. exact Hb.
  - apply elem_of_cons in Hb as [-> | Hb].
    + left; right; right. exists b. split; [| exact Hpos].
      eapply elem_insert_new; eassumption.
    + left; right; left. eauto.
  - destruct (decide (b0 = be)) as [-> | Hne].
    + right. subst p. pose proof (Forall_lookup_1 _ _ _ _ Hc E1) as [Hr Hn].
      simpl in Hn. rewrite <- Hn, E3.
      apply list_lookup_insert_eq. unfold in_range in Hr. lia.
    + left; right; right. exists b0. split; [| exact Hpos].
      eapply elem_insert_ne; eauto. congruence.
  - destruct (decide (position be = p)) as [<- | Hne].
    + right. pose proof (Forall_lookup_1 _ _ _ _ Hc E1) as [Hg Hn].
      simpl in Hn. rewrite <- Hn, E3.
      apply list_lookup_insert_eq. unfold in_range in Hg. lia.
    + right. rewrite list_lookup_insert_ne; [exact Hr |].
      pose proof (Forall_lookup_1 _ _ _ _ Hc E1) as [Hg Hn].
      unfold in_range in Hg, Hp. lia.
Qed.

(** ** Invariant: mutual exclusion *)

Definition holds_lock (c : cpc) : bool :=
  match c with CCheck | CHandle => true | _ => false end.

Definition producer_holds_lock (p : ppc) : bool :=
  match p with PPush _ _ | PFinish => true | _ => false end.

Definition weight (b : bool) : nat := if b then 1%nat else 0%nat.

Definition lock_owners (s : State) : nat :=
  (weight (producer_holds_lock (producer_pc s))
   + sum_list_with (fun c => weight (holds_lock c)) (consumers s))%nat.

Definition mutex_inv (s : State) : Prop :=
  lock_owners s = weight (mutex (buffer s)).

Lemma sum_insert {A} (f : A -> nat) (l : list A) (i : nat) (old new : A) :
  l !! i = Some old ->
  (sum_list_with f (<[i := new]> l) + f old = sum_list_with f l + f new)%nat.
Proof.
  revert i. induction l as [|x l IH]; intros [|i] Hi; simpl in *;
    try discriminate.
  - injection Hi as ->. lia.
  - specialize (IH _ Hi). lia.
Qed.

Lemma sum_elem {A} (f : A -> nat) (l : list A) (x : A) :
  x ∈ l -> (f x <= sum_list_with f l)%nat.
Proof.
  induction 1 as [x l | x y l _ IH]; simpl; lia.
Qed.

Lemma sum_notify_all_lock (cs : list cpc) :
  sum_list_with (fun c => weight (holds_lock c)) (notify_all cs)
  = sum_list_with (fun c => weight (holds_lock c)) cs.
Proof.
  induction cs as [|c cs IH]; simpl; [reflexivity |].
  rewrite IH. destruct c; reflexivity.
Qed.

(** Brings in the effect of each consumer update on a sum over the pool. *)
Ltac sum_facts :=
  repeat match goal with
    | Hl : ?l !! ?i = Some ?old
      |- context [sum_list_with ?f (<[?i := ?new]> ?l)] =>
        let Hs := fresh "Hs" in
        pose proof (sum_insert f l i old new Hl) as Hs; simpl in Hs;
        generalize dependent (sum_list_with f (<[i := new]> l)); intros
    end.

Lemma mutex_inv_step a s e s' :
  mutex_inv s -> step a s = Some (e, s') -> mutex_inv s'.
Proof.
  unfold mutex_inv, lock_owners. intros HI H.
  step_cases H; rewrite ?sum_notify_all_lock; sum_facts;
    rewrite ?E2, ?E3, ?E4 in *; simpl in *; try lia;
    destruct (mutex (buffer s)); simpl in *; lia.
Qed.

(** ** Invariant: past the wait loop the wait condition is false *)

Definition handle_inv (s : State) : Prop :=
  CHandle ∈ consumers s -> wait_condition (buffer s) = false.

Lemma handle_inv_step a s e s' :
  mutex_inv s -> handle_inv s -> step a s = Some (e, s') -> handle_inv s'.
Proof.
  unfold handle_inv, wait_condition. intros HM HI H.
  step_cases H; intros Hin;
    try solve [ try elem_old Hin; auto;
                first [ specialize (HI Hin); congruence
                      | destruct (data (buffer s)); auto ] ].
  (* a pop while another consumer is past its wait loop: two lock owners *)
  exfalso. apply (sum_elem (fun c => weight (holds_lock c))) in Hin.
  pose proof (sum_insert (fun c => weight (holds_lock c)) _ _ _ (CWork b) E1)
    as Hs.
  unfold mutex_inv, lock_owners in HM. simpl in *.
  destruct (mutex (buffer s)); simpl in *; lia.
Qed.

(** ** Invariant: nobody is left blocked once the producer has ended *)

Definition wake_inv (s : State) : Prop :=
  producer_pc s = PDone -> CWaiting ∈ consumers s -> False.

Lemma notify_all_no_waiting (cs : list cpc) : CWaiting ∈ notify_all cs -> False.
Proof.
  unfold notify_all. intros Hin.
  apply list_elem_of_fmap in Hin as (c & Hc & _). destruct c; discriminate.
Qed.

Lemma wake_inv_step a s e s' :
  flag_inv s -> wake_inv s -> step a s = Some (e, s') -> wake_inv s'.
Proof.
  unfold flag_inv, wake_inv, wait_condition. intros HF HI H.
  step_cases H; intros Hp Hin; try discriminate Hp;
    try solve [ try elem_old Hin; auto ].
  - eapply notify_all_no_waiting, Hin.
  - rewrite Hp in HF. simpl in HF. unfold wait_condition in E3.
    rewrite HF in E3. destruct (data (buffer s)); discriminate.
Qed.

(** ** The synchronisation invariant of every reachable state *)

Definition sync_inv (s : State) : Prop :=
  flag_inv s /\ done_inv s /\ mutex_inv s /\ handle_inv s /\ wake_inv s.

Definition no_retry (e : event) : Prop :=
  match e with EvRetry _ => False | _ => True end.

Lemma no_retry_step a s e s' :
  handle_inv s -> step a s = Some (e, s') -> no_retry e.
Proof.
  unfold handle_inv, wait_condition. intros HI H.
  step_cases H; auto.
  apply list_elem_of_lookup_2 in E1. specialize (HI E1). discriminate HI.
Qed.

Lemma sync_inv_step a s e s' :
  sync_inv s -> step a s = Some (e, s') -> sync_inv s' /\ no_retry e.
Proof.
  intros (HF & HD & HM & HH & HW) H.
  refine (conj (conj _ (conj _ (conj _ (conj _ _)))) _);
    eauto using flag_inv_step, done_inv_step, mutex_inv_step, handle_inv_step,
      wake_inv_step, no_retry_step.
Qed.

Lemma sum_replicate {A} (f : A -> nat) (n : nat) (x : A) :
  sum_list_with f (replicate n x) = (n * f x)%nat.
Proof. induction n as [|n IH]; simpl; [reflexivity | rewrite IH; lia]. Qed.

Lemma sync_inv_init n perm r0 : sync_inv (init n perm r0).
Proof.
  unfold sync_inv, flag_inv, done_inv, mutex_inv, handle_inv, wake_inv,
    lock_owners.
  simpl. refine (conj _ (conj _ (conj _ (conj _ _)))); try discriminate; auto.
  - intros Hin. apply elem_of_replicate_inv in Hin. discriminate.
  - rewrite sum_replicate. simpl. lia.
  - intros Hin. apply elem_of_replicate_inv in Hin. discriminate.
Qed.

Lemma sync_inv_run n perm r0 sched tr s :
  run sched (init n perm r0) = Some (tr, s) -> sync_inv s /\ Forall no_retry tr.
Proof.
  apply (run_invariant sync_inv no_retry sync_inv_step), sync_inv_init.
Qed.

(** ** The data invariant, for a permutation of the positions *)

Definition data_inv (s : State) : Prop := wf_inv s /\ results_inv s.

Definition covers_positions (perm : list Z) : Prop :=
  Forall in_range perm /\ forall p, in_range p -> p ∈ perm.

Lemma data_inv_step a s e s' :
  data_inv s -> step a s = Some (e, s') -> data_inv s' /\ good_event e.
Proof.
  intros [Hwf Hres] H. destruct (wf_inv_step _ _ _ _ Hwf H) as [Hwf' Hg].
  refine (conj (conj _ _) _); eauto using results_inv_step.
Qed.

Lemma data_inv_init n perm r0 :
  covers_positions perm -> length r0 = Z.to_nat DATA_LENGTH ->
  data_inv (init n perm r0).
Proof.
  intros [Hr Hall] Hl. split.
  - unfold wf_inv. simpl.
    refine (conj _ (conj _ (conj _ (conj _ _)))); auto.
    apply Forall_replicate. exact I.
  - intros p Hp. left. left. simpl. auto.
Qed.

Lemma data_inv_run n perm r0 sched tr s :
  covers_positions perm -> length r0 = Z.to_nat DATA_LENGTH ->
  run sched (init n perm r0) = Some (tr, s) ->
  data_inv s /\ Forall good_event tr.
Proof.
  intros Hc Hl. apply (run_invariant data_inv good_event data_inv_step).
  apply data_inv_init; assumption.
Qed.

Lemma consumers_length_step a s e s' :
  step a s = Some (e, s') -> length (consumers s') = length (consumers s).
Proof.
  intros H. step_cases H; unfold notify_all;
    rewrite ?length_insert, ?length_fmap; reflexivity.
Qed.

Lemma consumers_length_run sched s tr s' :
  run sched s = Some (tr, s') -> length (consumers s') = length (consumers s).
Proof.
  revert s tr. induction sched as [|a sched IH]; intros s tr Hrun.
  - injection Hrun as <- <-. reflexivity.
  - apply run_cons in Hrun as (e & s1 & tr1 & Hs & Hr & ->).
    rewrite (IH _ _ Hr). eapply consumers_length_step, Hs.
Qed.

(** ** What a trace shows of the queue *)

Definition pushed_of (e : event) : list BufferEntry :=
  match e with EvPush be => [be] | _ => [] end.

Definition popped_of (e : event) : list BufferEntry :=
  match e with EvPop _ be => [be] | _ => [] end.

(** The entries pushed, in push order, and the entries handed to a consumer,
    in pop order. *)
Definition pushed (tr : list event) : list BufferEntry := flat_map pushed_of tr.
Definition popped (tr : list event) : list BufferEntry := flat_map popped_of tr.

Lemma queue_step a s e s' :
  step a s = Some (e, s') ->
  popped_of e ++ data (buffer s') = data (buffer s) ++ pushed_of e.
Proof.
  intros H. step_cases H; rewrite ?app_nil_r; try reflexivity.
  all: destruct (negb _); reflexivity.
Qed.

Lemma queue_run sched s tr s' :
  run sched s = Some (tr, s') ->
  popped tr ++ data (buffer s') = data (buffer s) ++ pushed tr.
Proof.
  revert s tr. induction sched as [|a sched IH]; intros s tr Hrun.
  - injection Hrun as <- <-. simpl. rewrite app_nil_r. reflexivity.
  - apply run_cons in Hrun as (e & s1 & tr1 & Hs & Hr & ->).
    unfold popped, pushed in *. simpl.
    rewrite <- app_assoc, (IH _ _ Hr), !app_assoc.
    f_equal. eapply queue_step, Hs.
Qed.

Lemma producer_step_todo a s e s' :
  step a s = Some (e, s') ->
  map entry_of (todo (producer_pc s))
  = pushed_of e ++ map entry_of (todo (producer_pc s')).
Proof.
  intros H. step_cases H; try reflexivity.
  all: destruct (negb _); reflexivity.
Qed.

Lemma producer_run_todo sched s tr s' :
  run sched s = Some (tr, s') ->
  map entry_of (todo (producer_pc s))
  = pushed tr ++ map entry_of (todo (producer_pc s')).
Proof.
  revert s tr. induction sched as [|a sched IH]; intros s tr Hrun.
  - injection Hrun as <- <-. reflexivity.
  - apply run_cons in Hrun as (e & s1 & tr1 & Hs & Hr & ->).
    unfold pushed in *. simpl.
    rewrite <- app_assoc, <- (IH _ _ Hr). eapply producer_step_todo, Hs.
Qed.

(** After the joins the queue is empty, provided there is a consumer. *)
Lemma joined_drained (s : State) :
  done_inv s -> (1 <= length (consumers s))%nat -> joined s = true ->
  producer_pc s = PDone /\ data (buffer s) = []
  /\ Forall (fun c => c = CDone) (consumers s).
Proof.
  unfold joined. intros HD Hn Hj. apply andb_true_iff in Hj as [Hp Hc].
  assert (Hall : Forall (fun c => c = CDone) (consumers s)).
  { apply Forall_forall. intros c Hin.
    rewrite forallb_forall in Hc. apply list_elem_of_In in Hin.
    specialize (Hc _ Hin). destruct c; try discriminate. reflexivity. }
  split; [destruct (producer_pc s); try discriminate; reflexivity |].
  split; [| exact Hall].
  apply HD. destruct (consumers s) as [|c cs]; [simpl in Hn; lia |].
  apply Forall_cons in Hall as [-> _]. apply elem_of_cons. auto.
Qed.

(** ** [random_permutation] *)

Lemma elem_of_iota (len p : Z) : p ∈ iota len <-> 0 <= p < len.
Proof.
  unfold iota. rewrite list_elem_of_fmap. split.
  - intros (k & -> & Hk). apply list_elem_of_In, in_seq in Hk. lia.
  - intros Hp. exists (Z.to_nat p). split; [lia |].
    apply list_elem_of_In, in_seq. lia.
Qed.

Lemma NoDup_iota (len : Z) : NoDup (iota len).
Proof.
  unfold iota. apply NoDup_fmap_2; [intros x y; lia |].
  apply NoDup_ListNoDup, seq_NoDup.
Qed.

Section Shuffle.
Variable random_shuffle : list Z -> list Z.
Hypothesis random_shuffle_permutes : forall l, Permutation l (random_shuffle l).

Lemma random_permutation_elem (len p : Z) :
  p ∈ random_permutation random_shuffle len <-> 0 <= p < len.
Proof using random_shuffle_permutes.
  unfold random_permutation.
  rewrite <- (random_shuffle_permutes (iota len)). apply elem_of_iota.
Qed.

Lemma random_permutation_NoDup (len : Z) :
  NoDup (random_permutation random_shuffle len).
Proof using random_shuffle_permutes.
  unfold random_permutation.
  rewrite <- (random_shuffle_permutes (iota len)). apply NoDup_iota.
Qed.

Lemma random_permutation_covers :
  covers_positions (random_permutation random_shuffle DATA_LENGTH).
Proof using random_shuffle_permutes.
  split.
  - apply Forall_forall. intros p Hp.
    apply random_permutation_elem in Hp. exact Hp.
  - intros p Hp. apply random_permutation_elem. exact Hp.
Qed.
End Shuffle.

(** ** Results after the joins *)

Lemma results_after_join n perm r0 sched tr s :
  covers_positions perm -> length r0 = Z.to_nat DATA_LENGTH -> (1 <= n)%nat ->
  run sched (init n perm r0) = Some (tr, s) -> joined s = true ->
  length (results s) = Z.to_nat DATA_LENGTH
  /\ forall p, in_range p ->
       results s !! Z.to_nat p = fibonacci (DATA_START + p).
Proof.
  intros Hcov Hl Hn Hrun Hj.
  destruct (data_inv_run _ _ _ _ _ _ Hcov Hl Hrun) as [[Hwf Hres] _].
  destruct (sync_inv_run _ _ _ _ _ _ Hrun) as [(_ & HD & _) _].
  pose proof (consumers_length_run _ _ _ _ Hrun) as Hlen.
  simpl in Hlen. rewrite length_replicate in Hlen.
  destruct (joined_drained s HD) as (Hp & Hd & Hall); [lia | exact Hj |].
  split; [apply Hwf |].
  intros p Hp'. destruct (Hres p Hp') as [Hpend | Hr]; [| exact Hr].
  exfalso. unfold pending in Hpend. rewrite Hp, Hd in Hpend. simpl in Hpend.
  destruct Hpend as [Hin | [(be & Hin & _) | (be & Hin & _)]].
  - inversion Hin.
  - inversion Hin.
  - rewrite Forall_forall in Hall. specialize (Hall _ Hin). discriminate.
Qed.

Definition expected_results : list Z :=
  [832040; 1346269; 2178309; 3524578; 5702887; 9227465; 14930352; 24157817;
   39088169; 63245986; 102334155; 165580141; 267914296; 433494437; 701408733].

Lemma expected_results_fibonacci (p : Z) :
  in_range p -> expected_results !! Z.to_nat p = fibonacci (DATA_START + p).
Proof.
  unfold in_range, DATA_LENGTH, DATA_END, DATA_START. intros Hp.
  rewrite fibonacci_iter.
  assert (Hcases : In p [0; 1; 2; 3; 4; 5; 6; 7; 8; 9; 10; 11; 12; 13; 14]).
  { simpl. lia. }
  simpl in Hcases.
  repeat (destruct Hcases as [<- | Hcases]; [vm_compute; reflexivity |]).
  contradiction.
Qed.

Lemma results_determined (r : list Z) :
  length r = Z.to_nat DATA_LENGTH ->
  (forall p, in_range p -> r !! Z.to_nat p = fibonacci (DATA_START + p)) ->
  r = expected_results.
Proof.
  intros Hl Hr. apply list_eq. intros i.
  destruct (decide (i < Z.to_nat DATA_LENGTH)%nat) as [Hi | Hi].
  - assert (Hin : in_range (Z.of_nat i)) by (unfold in_range; lia).
    pose proof (Hr _ Hin) as H1.
    pose proof (expected_results_fibonacci _ Hin) as H2.
    rewrite Nat2Z.id in H1, H2. congruence.
  - rewrite !lookup_ge_None_2; [reflexivity | | ].
    + change (length expected_results) with (Z.to_nat DATA_LENGTH). lia.
    + lia.
Qed.

(** * The claims *)

(** C1. After the consumers and the producer have been joined, every slot
    [i] of the result array holds [fibonacci (30 + i)]: slot 0 holds
    [fibonacci 30 = 832040], slot 1 holds [fibonacci 31 = 1346269], every
    slot from 2 on is the sum of the two slots before it, and the assertions
    of [main] pass.  This holds for every outcome of the shuffle, every
    initial content of the array and every interleaving. *)
Theorem results_after_join_are_fibonacci
    (random_shuffle : list Z -> list Z) (results0 : list Z)
    (sched : list action) (tr : list event) (s : State) :
  (forall l, Permutation l (random_shuffle l)) ->
  length results0 = Z.to_nat DATA_LENGTH ->
  run sched (main_init random_shuffle results0) = Some (tr, s) ->
  joined s = true ->
  results s = expected_results
  /\ (forall i, 0 <= i < 15 ->
        fibonacci (30 + i) = Some (at_index (results s) i))
  /\ at_index (results s) 0 = 832040 /\ fibonacci 30 = Some 832040
  /\ at_index (results s) 1 = 1346269 /\ fibonacci 31 = Some 1346269
  /\ (forall i, 2 <= i < 15 ->
        at_index (results s) i
        = at_index (results s) (i - 1) + at_index (results s) (i - 2))
  /\ check_results (results s) = Some true.
Proof.
  intros Hshuffle Hl Hrun Hj. unfold main_init in Hrun.
  destruct (results_after_join NUM_CONSUMERS _ _ _ _ _
              (random_permutation_covers _ Hshuffle) Hl
              ltac:(unfold NUM_CONSUMERS; lia) Hrun Hj) as [Hlen Hres].
  rewrite (results_determined _ Hlen Hres).
  assert (Hcases : forall i, 0 <= i < 15 ->
            In i [0; 1; 2; 3; 4; 5; 6; 7; 8; 9; 10; 11; 12; 13; 14]).
  { intros i Hi. simpl. lia. }
  refine (conj eq_refl (conj _ (conj _ (conj _ (conj _ (conj _ (conj _ _))))))).
  - intros i Hi. rewrite fibonacci_iter. specialize (Hcases i Hi).
    simpl in Hcases.
    repeat (destruct Hcases as [<- | Hcases]; [vm_compute; reflexivity |]).
    contradiction.
  - vm_compute. reflexivity.
  - rewrite fibonacci_iter. vm_compute. reflexivity.
  - vm_compute. reflexivity.
  - rewrite fibonacci_iter. vm_compute. reflexivity.
  - intros i Hi. assert (Hi' : 0 <= i < 15) by lia. specialize (Hcases i Hi').
    simpl in Hcases.
    repeat (destruct Hcases as [<- | Hcases];
            [first [lia | vm_compute; reflexivity] |]).
    contradiction.
  - unfold check_results. rewrite !fibonacci_iter. vm_compute. reflexivity.
Qed.

(** * A complete run of [main]

    The shuffle reverses the vector, the array starts with arbitrary
    content, all consumers first block on the empty buffer (one of them
    also wakes up spuriously), every pushed entry is taken by the consumer
    that [notify_one] wakes, and [notify_all] lets everybody leave. *)

Definition example_results0 : list Z := replicate 15 (-1).

Definition example_sched : list action :=
  flat_map (fun i => [Cons i; Cons i]) (seq 0 8)
  ++ [Spurious 3; Cons 3; Cons 3]
  ++ flat_map
       (fun k =>
          let w := (k mod 8)%nat in
          [Prod 0; Prod 0; Prod w; Cons w; Cons w; Cons w; Cons w; Cons w; Cons w])
       (seq 0 15)
  ++ [Prod 0; Prod 0; Prod 0]
  ++ flat_map (fun i => [Cons i; Cons i; Cons i]) (seq 0 8).

Lemma run_cons_intro a sched s e s1 tr s' :
  step a s = Some (e, s1) -> run sched s1 = Some (tr, s') ->
  run (a :: sched) s = Some (e :: tr, s').
Proof. intros Hs Hr. apply run_cons. eauto 6. Qed.

(** Executes the next action of a concrete schedule; [fibonacci] is
    evaluated through [fib_iter]. *)
Ltac run_step :=
  eapply run_cons_intro;
  [ cbv -[fibonacci]; rewrite ?fibonacci_iter; cbv -[fibonacci]; reflexivity |].

Lemma example_run :
  exists tr s,
    run example_sched (main_init (@rev Z) example_results0) = Some (tr, s)
    /\ joined s = true.
Proof.
  eexists. eexists. split.
  - set (sch := example_sched). vm_compute in sch. subst sch.
    set (s0 := main_init (@rev Z) example_results0). vm_compute in s0. subst s0.
    repeat run_step. reflexivity.
  - vm_compute. reflexivity.
Qed.

(** ** Control flow of a consumer *)

Definition cpc_flow (c c' : cpc) : Prop :=
  match c with
  | CLoop | CWoken => c' = CCheck
  | CCheck => c' = CWaiting \/ c' = CHandle
  | CWaiting => c' = CWoken
  | CHandle => c' = CLoop \/ c' = CDone \/ exists be, c' = CWork be
  | CWork _ => c' = CLoop
  | CDone => False
  end.

Lemma lookup_notify_all (cs : list cpc) (j : nat) (c : cpc) :
  cs !! j = Some c -> notify_all cs !! j = Some (wake c).
Proof. intros H. unfold notify_all. rewrite list_lookup_fmap, H. reflexivity. Qed.

(** Looks up consumer [j] in an updated pool. *)
Ltac lookup_updated j :=
  repeat match goal with
    | Hl : ?l !! ?i = Some _ |- context [<[?i := ?c]> ?l !! j] =>
        destruct (decide (i = j)) as [<- | ?];
        [ rewrite (list_lookup_insert_eq l i c) by (eapply lookup_lt_Some, Hl)
        | rewrite (list_lookup_insert_ne l i j c) by assumption ]
    end.

Lemma consumer_flow a s e s' (j : nat) (c : cpc) :
  step a s = Some (e, s') -> consumers s !! j = Some c ->
  exists c', consumers s' !! j = Some c' /\ (c' = c \/ cpc_flow c c').
Proof.
  intros H Hj. step_cases H; lookup_updated j;
    try (rewrite (lookup_notify_all _ _ _ Hj); destruct c);
    try (rewrite Hj in *; simplify_eq);
    simpl; eauto 8.
Qed.

(** C2. The dequeue step of a consumer: in every reachable state, a consumer
    that finds the buffer empty and open blocks and cannot run by itself; a
    blocked consumer can only become woken and a woken consumer can only go
    back to the test of the wait condition; it gets past that test only with
    a non-empty buffer or a finished production; it then either removes and
    receives the head entry of a non-empty buffer, or leaves its loop with
    the buffer empty and the production finished; it never goes on with an
    empty, open buffer. *)
Theorem pop_waits_for_item_or_close
    (n : nat) (perm results0 : list Z) (sched : list action)
    (tr : list event) (s : State) (a : action) (e : event) (s' : State) :
  run sched (init n perm results0) = Some (tr, s) ->
  step a s = Some (e, s') ->
  (forall j, consumers s !! j = Some CWaiting ->
     step (Cons j) s = None
     /\ (consumers s' !! j = Some CWaiting \/ consumers s' !! j = Some CWoken))
  /\ (forall j, consumers s !! j = Some CWoken ->
        consumers s' !! j = Some CWoken \/ consumers s' !! j = Some CCheck)
  /\ match e with
     | EvWait i =>
         data (buffer s) = [] /\ production_is_finished (buffer s) = false
         /\ consumers s' !! i = Some CWaiting
     | EvProceed i =>
         (data (buffer s) <> [] \/ production_is_finished (buffer s) = true)
         /\ buffer s' = buffer s /\ consumers s' !! i = Some CHandle
     | EvPop i be =>
         data (buffer s) = be :: data (buffer s')
         /\ consumers s' !! i = Some (CWork be)
     | EvExit i =>
         data (buffer s) = [] /\ production_is_finished (buffer s) = true
         /\ consumers s' !! i = Some CDone
     | EvRetry _ => False
     | _ => True
     end.
Proof.
  intros Hrun H.
  destruct (sync_inv_run _ _ _ _ _ _ Hrun) as [Hsync _].
  destruct (sync_inv_step _ _ _ _ Hsync H) as [_ Hnr].
  refine (conj _ (conj _ _)).
  - intros j Hj. split.
    + unfold step. rewrite Hj. destruct (aborted s); reflexivity.
    + destruct (consumer_flow _ _ _ _ j _ H Hj) as (c' & Hc' & [-> | ->]); auto.
  - intros j Hj.
    destruct (consumer_flow _ _ _ _ j _ H Hj) as (c' & Hc' & [-> | ->]); auto.
  - clear Hsync Hrun. unfold wait_condition in *.
    step_cases H; auto;
      try match goal with
        | Hl : consumers s !! ?i = Some _ |- _ =>
            pose proof (lookup_lt_Some _ _ _ Hl)
        end;
      rewrite ?list_lookup_insert_eq by assumption;
      repeat split; auto; try congruence;
      try (destruct (production_is_finished (buffer s)); simpl in *; auto;
           congruence).
    all: unfold wait_condition in *; destruct (data (buffer s));
      destruct (production_is_finished (buffer s)); simpl in *; auto;
      congruence.
Qed.

(** ** Leaving the loop *)

Definition exits_of (i : nat) (e : event) : nat :=
  match e with EvExit j => if decide (j = i) then 1%nat else 0%nat | _ => 0%nat end.

(** How often consumer [i] has seen the end of production in a trace. *)
Definition exit_count (i : nat) (tr : list event) : nat :=
  sum_list_with (exits_of i) tr.

Definition done_at (i : nat) (s : State) : nat :=
  match consumers s !! i with Some CDone => 1%nat | _ => 0%nat end.

Lemma exit_step a s e s' (i : nat) :
  step a s = Some (e, s') ->
  (exits_of i e + done_at i s = done_at i s')%nat.
Proof.
  unfold done_at. intros H.
  step_cases H; unfold notify_all; lookup_updated i; rewrite ?list_lookup_fmap;
    try match goal with
      | Hl : consumers s !! _ = Some _ |- _ => rewrite Hl
      end;
    try (destruct (decide _); [| congruence]);
    try (destruct (decide _); [congruence |]);
    try reflexivity;
    destruct (consumers s !! i) as [[] |]; reflexivity.
Qed.

Lemma exit_run sched s tr s' (i : nat) :
  run sched s = Some (tr, s') ->
  (exit_count i tr + done_at i s = done_at i s')%nat.
Proof.
  revert s tr. induction sched as [|a sched IH]; intros s tr Hrun.
  - injection Hrun as <- <-. reflexivity.
  - apply run_cons in Hrun as (e & s1 & tr1 & Hs & Hr & ->).
    unfold exit_count in *. simpl.
    rewrite <- (IH _ _ Hr), <- (exit_step _ _ _ _ i Hs). lia.
Qed.

(** C3. No loss and no duplication: in every run of [n >= 1] consumers over
    a producer sequence [perm] that ends with all threads joined, the entries
    pushed are exactly the entries of [perm], the entries handed to consumers
    are exactly the entries pushed, each once and in the same order, so that
    the number of pops that return an entry is the number of pushes; the
    buffer is empty, and every consumer has seen the end of production
    exactly once. *)
Theorem no_loss_no_duplication
    (n : nat) (perm results0 : list Z) (sched : list action)
    (tr : list event) (s : State) :
  (1 <= n)%nat ->
  run sched (init n perm results0) = Some (tr, s) ->
  joined s = true ->
  pushed tr = map entry_of perm
  /\ popped tr = pushed tr
  /\ length (popped tr) = length perm
  /\ data (buffer s) = []
  /\ forall i, (i < n)%nat -> exit_count i tr = 1%nat.
Proof.
  intros Hn Hrun Hj.
  destruct (sync_inv_run _ _ _ _ _ _ Hrun) as [(_ & HD & _) _].
  pose proof (consumers_length_run _ _ _ _ Hrun) as Hlen.
  simpl in Hlen. rewrite length_replicate in Hlen.
  destruct (joined_drained s HD) as (Hp & Hd & Hall); [lia | exact Hj |].
  pose proof (queue_run _ _ _ _ Hrun) as Hq.
  pose proof (producer_run_todo _ _ _ _ Hrun) as Ht.
  rewrite Hd in Hq. rewrite Hp in Ht. simpl in Hq, Ht.
  rewrite app_nil_r in Hq, Ht.
  refine (conj _ (conj _ (conj _ (conj _ _)))); auto.
  - rewrite Hq, <- Ht. apply length_map.
  - intros i Hi. pose proof (exit_run _ _ _ _ i Hrun) as He.
    unfold done_at in He. simpl in He.
    rewrite lookup_replicate_2 in He by exact Hi.
    destruct (lookup_lt_is_Some_2 (consumers s) i) as [c Hc]; [lia |].
    rewrite Hc in He. rewrite Forall_forall in Hall.
    rewrite (Hall c) in He by (eapply list_elem_of_lookup_2, Hc). lia.
Qed.

(** ** Pushes and the end of production *)

Definition is_push (e : event) : bool :=
  match e with EvPush _ => true | _ => false end.

(** No push is recorded after the flag has been set. *)
Fixpoint pushes_precede_close (tr : list event) : bool :=
  match tr with
  | [] => true
  | EvClose :: tr' => forallb (fun e => negb (is_push e)) tr'
  | _ :: tr' => pushes_precede_close tr'
  end.

Lemma closing_step a s e s' :
  step a s = Some (e, s') ->
  (e = EvClose -> closing (producer_pc s') = true)
  /\ (closing (producer_pc s) = true ->
      closing (producer_pc s') = true /\ is_push e = false).
Proof.
  intros H. step_cases H; split; try discriminate; auto;
    try (destruct (negb _); discriminate);
    try (destruct (negb _); auto).
Qed.

Lemma closing_run sched s tr s' :
  run sched s = Some (tr, s') -> closing (producer_pc s) = true ->
  forallb (fun e => negb (is_push e)) tr = true.
Proof.
  revert s tr. induction sched as [|a sched IH]; intros s tr Hrun Hc.
  - injection Hrun as <- <-. reflexivity.
  - apply run_cons in Hrun as (e & s1 & tr1 & Hs & Hr & ->).
    destruct (closing_step _ _ _ _ Hs) as [_ Hkeep].
    destruct (Hkeep Hc) as [Hc1 Hnp]. simpl. rewrite Hnp. simpl. eauto.
Qed.

Lemma pushes_precede_close_run sched s tr s' :
  run sched s = Some (tr, s') -> pushes_precede_close tr = true.
Proof.
  revert s tr. induction sched as [|a sched IH]; intros s tr Hrun.
  - injection Hrun as <- <-. reflexivity.
  - apply run_cons in Hrun as (e & s1 & tr1 & Hs & Hr & ->).
    destruct (closing_step _ _ _ _ Hs) as [Hclose _].
    destruct e; simpl; eauto using closing_run.
Qed.

(** The state in which a push is attempted on a closed buffer. *)
Definition closed_buffer : Buffer := mkBuffer true [] true.

(** C4 (counterexample). The push statement has no guard: on a buffer whose
    flag is already set it appends the entry like on any other buffer, and
    the producer's step reports a push, not an error. *)
Lemma push_after_close_appends :
  production_is_finished closed_buffer = true
  /\ data (push closed_buffer (entry_of 7)) = data closed_buffer ++ [entry_of 7]
  /\ data (push closed_buffer (entry_of 7)) <> data closed_buffer
  /\ exists s',
       step (Prod 0) (mkState closed_buffer [] (PPush 7 []) [] false)
       = Some (EvPush (entry_of 7), s')
       /\ data (buffer s') = [entry_of 7].
Proof.
  refine (conj _ (conj _ (conj _ _))); try reflexivity.
  - discriminate.
  - eexists. split; reflexivity.
Qed.

(** C4 (amended). [push] appends its entry whatever the flag says and cannot
    fail; the program never needs a guard, because in every run the producer
    performs all its pushes before it sets the flag: no push is recorded
    after the close, and a push step always starts from an open buffer. *)
Theorem push_never_follows_close
    (n : nat) (perm results0 : list Z) (sched : list action)
    (tr : list event) (s : State) :
  run sched (init n perm results0) = Some (tr, s) ->
  (forall b be,
     push b be = mkBuffer (mutex b) (data b ++ [be]) (production_is_finished b))
  /\ pushes_precede_close tr = true
  /\ forall a be s',
       step a s = Some (EvPush be, s') ->
       production_is_finished (buffer s) = false
       /\ data (buffer s') = data (buffer s) ++ [be].
Proof.
  intros Hrun. refine (conj _ (conj _ _)).
  - reflexivity.
  - eapply pushes_precede_close_run, Hrun.
  - destruct (sync_inv_run _ _ _ _ _ _ Hrun) as [(HF & _) _].
    unfold flag_inv in HF. intros a be s' H.
    remember (EvPush be) as e eqn:He.
    step_cases H; try discriminate He; try (destruct (negb _); discriminate He).
    injection He as <-. auto.
Qed.

(** C5. The flag is monotone: from a reachable state in which
    [production_is_finished] is true, no sequence of steps of any thread
    leads to a state in which it is false. *)
Theorem closed_flag_is_monotone
    (n : nat) (perm results0 : list Z) (sched1 sched2 : list action)
    (tr1 tr2 : list event) (s s' : State) :
  run sched1 (init n perm results0) = Some (tr1, s) ->
  run sched2 s = Some (tr2, s') ->
  production_is_finished (buffer s) = true ->
  production_is_finished (buffer s') = true.
Proof.
  intros _. revert s tr2. induction sched2 as [|a sched2 IH]; intros s tr2 Hrun Hf.
  - injection Hrun as <- <-. exact Hf.
  - apply run_cons in Hrun as (e & s1 & tr & Hs & Hr & ->).
    apply (IH _ _ Hr). clear IH Hr.
    step_cases Hs; auto.
Qed.

(** ** Closing the queue *)

(** The end of [producer] run without interruption: take the lock, set the
    flag, release the lock, [notify_all].  [None]: the lock is not free and
    the caller waits. *)
Definition close (s : State) : option State :=
  match lock (buffer s) with
  | None => None
  | Some b =>
      Some (with_consumers (notify_all (consumers s))
              (with_buffer (unlock (finish_production b)) s))
  end.

Lemma notify_all_idempotent (cs : list cpc) :
  notify_all (notify_all cs) = notify_all cs.
Proof.
  unfold notify_all. rewrite <- list_fmap_compose.
  apply list_fmap_ext. intros _ [] _; reflexivity.
Qed.

(** The three closing statements of the producer compute [close]. *)
Lemma close_is_producer_epilogue (s s1 : State) (k1 k2 k3 : nat) :
  aborted s = false -> producer_pc s = PLoop [] -> close s = Some s1 ->
  run [Prod k1; Prod k2; Prod k3] s
  = Some ([EvLock TProducer; EvClose; EvNotifyAll], with_producer PDone s1).
Proof.
  unfold close, lock. intros Ha Hp Hc.
  destruct (mutex (buffer s)) eqn:Hm; [discriminate |].
  injection Hc as <-. unfold run, step, producer_step, lock. simpl.
  rewrite Ha, Hp, Hm. simpl. rewrite Ha. simpl. rewrite Ha. reflexivity.
Qed.

(** C6. [close] is idempotent: when a call of [close] has returned, a second
    call returns as well and leaves the state exactly as the first call left
    it, with the flag set and no consumer blocked. *)
Theorem close_idempotent (s s1 : State) :
  close s = Some s1 ->
  close s1 = Some s1
  /\ production_is_finished (buffer s1) = true
  /\ (CWaiting ∈ consumers s1 -> False).
Proof.
  unfold close, lock. intros H.
  destruct (mutex (buffer s)) eqn:Hm; [discriminate |].
  injection H as <-. simpl.
  refine (conj _ (conj _ _)).
  - unfold with_consumers, with_buffer, unlock, finish_production. simpl.
    rewrite notify_all_idempotent. reflexivity.
  - reflexivity.
  - apply notify_all_no_waiting.
Qed.

(** ** The producer's protocol *)

Inductive pevent :=
| PEPush (be : BufferEntry)
| PENotifyOne
| PEClose
| PENotifyAll.

Definition producer_view (e : event) : list pevent :=
  match e with
  | EvPush be => [PEPush be]
  | EvNotifyOne _ => [PENotifyOne]
  | EvClose => [PEClose]
  | EvNotifyAll => [PENotifyAll]
  | _ => []
  end.

(** What the producer does to the buffer and the condition variable, as a
    trace shows it. *)
Definition producer_events (tr : list event) : list pevent :=
  flat_map producer_view tr.

Definition producer_script (perm : list Z) : list pevent :=
  flat_map (fun it => [PEPush (entry_of it); PENotifyOne]) perm
  ++ [PEClose; PENotifyAll].

(** What is left of the script at a program counter. *)
Definition script_from (p : ppc) : list pevent :=
  match p with
  | PLoop rest => producer_script rest
  | PPush it rest => PEPush (entry_of it) :: PENotifyOne :: producer_script rest
  | PNotifyOne rest => PENotifyOne :: producer_script rest
  | PFinish => [PEClose; PENotifyAll]
  | PNotifyAll => [PENotifyAll]
  | PDone => []
  end.

Lemma script_step a s e s' :
  step a s = Some (e, s') ->
  script_from (producer_pc s) = producer_view e ++ script_from (producer_pc s').
Proof.
  intros H. step_cases H; try reflexivity; destruct (negb _); reflexivity.
Qed.

Lemma script_run sched s tr s' :
  run sched s = Some (tr, s') ->
  script_from (producer_pc s) = producer_events tr ++ script_from (producer_pc s').
Proof.
  revert s tr. induction sched as [|a sched IH]; intros s tr Hrun.
  - injection Hrun as <- <-. reflexivity.
  - apply run_cons in Hrun as (e & s1 & tr1 & Hs & Hr & ->).
    unfold producer_events in *. simpl.
    rewrite <- app_assoc, <- (IH _ _ Hr). eapply script_step, Hs.
Qed.

(** C7. Wake-up asymmetry.  What the producer does follows its script: every
    push is followed by one [notify_one], and the close by one [notify_all].
    A [notify_one] wakes exactly one of the blocked consumers when there is
    one (and does nothing otherwise); [notify_all] runs with the flag already
    set and wakes every blocked consumer. *)
Theorem wake_up_asymmetry
    (n : nat) (perm results0 : list Z) (sched : list action)
    (tr : list event) (s : State) :
  run sched (init n perm results0) = Some (tr, s) ->
  producer_script perm = producer_events tr ++ script_from (producer_pc s)
  /\ forall a e s',
       step a s = Some (e, s') ->
       match e with
       | EvPush _ => exists rest, producer_pc s' = PNotifyOne rest
       | EvNotifyOne (Some i) =>
           consumers s !! i = Some CWaiting
           /\ consumers s' = <[i := CWoken]> (consumers s)
       | EvNotifyOne None =>
           (CWaiting ∈ consumers s -> False) /\ consumers s' = consumers s
       | EvClose =>
           production_is_finished (buffer s') = true
           /\ producer_pc s' = PNotifyAll
       | EvNotifyAll =>
           production_is_finished (buffer s) = true
           /\ consumers s' = map wake (consumers s)
           /\ (CWaiting ∈ consumers s' -> False)
       | _ => True
       end.
Proof.
  intros Hrun. split.
  - apply (script_run _ _ _ _ Hrun).
  - destruct (sync_inv_run _ _ _ _ _ _ Hrun) as [(HF & _) _].
    unfold flag_inv in HF. intros a e s' H.
    step_cases H; eauto; try (destruct (negb _); exact I).
    all: try (split; [| reflexivity]; intros Hin;
              apply list_elem_of_In in Hin;
              assert (Hex : existsb is_waiting (consumers s) = true)
                by (apply existsb_exists; eauto);
              congruence).
    refine (conj HF (conj eq_refl _)). apply notify_all_no_waiting.
Qed.

(** ** Termination: a potential that every statement lowers *)

Definition consumer_potential (c : cpc) : nat :=
  match c with
  | CLoop | CWoken => 3
  | CCheck => 2
  | CWaiting | CHandle => 1
  | CWork _ => 4
  | CDone => 0
  end%nat.

Definition producer_potential (n : nat) (p : ppc) : nat :=
  match p with
  | PLoop rest => 9 * length rest + 2 * n + 3
  | PPush _ rest => 9 * length rest + 2 * n + 11
  | PNotifyOne rest => 9 * length rest + 2 * n + 6
  | PFinish => 2 * n + 2
  | PNotifyAll => 2 * n + 1
  | PDone => 0
  end%nat.

Definition potential (s : State) : nat :=
  if aborted s then 0%nat
  else (1 + producer_potential (length (consumers s)) (producer_pc s)
        + 4 * length (data (buffer s))
        + sum_list_with consumer_potential (consumers s))%nat.

Definition is_spurious (a : action) : bool :=
  match a with Spurious _ => true | _ => false end.

Definition spurious_count (sched : list action) : nat :=
  length (filter (fun a => is_spurious a = true) sched).

Lemma potential_notify_all (cs : list cpc) :
  (sum_list_with consumer_potential (notify_all cs)
   <= sum_list_with consumer_potential cs + 2 * length cs)%nat.
Proof.
  induction cs as [|c cs IH]; simpl; [lia |].
  destruct c; simpl; lia.
Qed.

Lemma potential_step a s e s' :
  handle_inv s -> step a s = Some (e, s') ->
  if is_spurious a then potential s' = (potential s + 2)%nat
  else (potential s' < potential s)%nat.
Proof.
  unfold handle_inv, wait_condition, potential. intros HI H.
  step_cases H; rewrite ?E;
    try (pose proof (potential_notify_all (consumers s)));
    unfold notify_all; rewrite ?length_insert, ?length_fmap, ?length_app;
    fold (notify_all (consumers s));
    sum_facts; simpl in *; try lia.
  (* the loop is never re-entered without an entry *)
  apply list_elem_of_lookup_2 in E1. specialize (HI E1). discriminate HI.
Qed.

Lemma potential_run sched s tr s' :
  sync_inv s -> run sched s = Some (tr, s') ->
  (potential s' + length sched <= potential s + 3 * spurious_count sched)%nat.
Proof.
  revert s tr. induction sched as [|a sched IH]; intros s tr HI Hrun.
  - injection Hrun as <- <-. simpl. lia.
  - apply run_cons in Hrun as (e & s1 & tr1 & Hs & Hr & ->).
    destruct (sync_inv_step _ _ _ _ HI Hs) as [HI1 _].
    specialize (IH _ _ HI1 Hr).
    destruct HI as (_ & _ & _ & HH & _).
    pose proof (potential_step _ _ _ _ HH Hs) as Hp.
    unfold spurious_count in *. rewrite filter_cons.
    destruct (is_spurious a) eqn:Ha.
    + rewrite decide_True by reflexivity. simpl. lia.
    + rewrite decide_False by discriminate. simpl. lia.
Qed.

(** ** Progress: some thread can always run until all have ended *)

Definition enabled_consumer (lock_free : bool) (c : cpc) : bool :=
  match c with
  | CLoop | CWoken => lock_free
  | CCheck | CHandle | CWork _ => true
  | CWaiting | CDone => false
  end.

Lemma consumer_can_step (s : State) (i : nat) (c : cpc) :
  aborted s = false -> consumers s !! i = Some c ->
  enabled_consumer (negb (mutex (buffer s))) c = true ->
  exists e s', step (Cons i) s = Some (e, s').
Proof.
  intros Ha Hi Hen. unfold step. rewrite Ha, Hi.
  unfold consumer_step, lock.
  destruct c; simpl in Hen; try discriminate;
    try (destruct (mutex (buffer s)); [discriminate | eauto]).
  - destruct (wait_condition (buffer s)); eauto.
  - destruct (data (buffer s)); eauto.
  - destruct (fibonacci (number be)); [| eauto].
    destruct (store _ _ _); eauto.
Qed.

Lemma not_enabled_no_lock (f : bool) (cs : list cpc) :
  existsb (enabled_consumer f) cs = false ->
  sum_list_with (fun c => weight (holds_lock c)) cs = 0%nat.
Proof.
  induction cs as [|c cs IH]; simpl; [reflexivity |].
  intros H. apply orb_false_iff in H as [Hc Hcs]. rewrite (IH Hcs).
  destruct c; simpl in *; try discriminate; reflexivity.
Qed.

Lemma not_enabled_all_done (cs : list cpc) :
  existsb (enabled_consumer true) cs = false ->
  (CWaiting ∈ cs -> False) -> forallb is_done cs = true.
Proof.
  induction cs as [|c cs IH]; simpl; [reflexivity |].
  intros H Hnw. apply orb_false_iff in H as [Hc Hcs].
  rewrite IH; [| exact Hcs | intros Hin; apply Hnw; right; exact Hin].
  destruct c; simpl in *; try discriminate; try reflexivity.
  exfalso. apply Hnw. left.
Qed.

Lemma notify_one_enabled (cs : list cpc) :
  exists pick r, notify_one pick cs = Some r.
Proof.
  unfold notify_one. destruct (existsb is_waiting cs) eqn:Hex.
  - apply existsb_exists in Hex as (c & Hin & Hc).
    destruct c; try discriminate.
    apply list_elem_of_In, list_elem_of_lookup in Hin as [i Hi].
    exists i. rewrite Hi. eauto.
  - exists 0%nat. destruct (cs !! 0%nat) as [c |] eqn:H0; [| eauto].
    destruct c; eauto.
Qed.

Lemma progress (s : State) :
  sync_inv s -> aborted s = false -> joined s = false ->
  exists a e s', is_spurious a = false /\ step a s = Some (e, s').
Proof.
  intros (HF & HD & HM & HH & HW) Ha Hj.
  destruct (existsb (enabled_consumer (negb (mutex (buffer s)))) (consumers s))
    eqn:Hex.
  - apply existsb_exists in Hex as (c & Hin & Hc).
    apply list_elem_of_In, list_elem_of_lookup in Hin as [i Hi].
    destruct (consumer_can_step s i c Ha Hi Hc) as (e & s' & Hs).
    exists (Cons i), e, s'. auto.
  - pose proof (not_enabled_no_lock _ _ Hex) as Hnl.
    unfold mutex_inv, lock_owners in HM. rewrite Hnl in HM.
    destruct (producer_pc s) eqn:Hp; simpl in HM.
    + exists (Prod 0). unfold step, producer_step, lock. rewrite Ha, Hp.
      destruct (mutex (buffer s)); [discriminate | eauto].
    + exists (Prod 0). unfold step, producer_step. rewrite Ha, Hp. eauto.
    + destruct (notify_one_enabled (consumers s)) as (pick & [w cs'] & Hr).
      exists (Prod pick). unfold step, producer_step. rewrite Ha, Hp, Hr. eauto.
    + exists (Prod 0). unfold step, producer_step. rewrite Ha, Hp. eauto.
    + exists (Prod 0). unfold step, producer_step. rewrite Ha, Hp. eauto.
    + exfalso. destruct (mutex (buffer s)); [discriminate |]. simpl in Hex.
      unfold joined in Hj. rewrite Hp in Hj. simpl in Hj.
      rewrite not_enabled_all_done in Hj; [discriminate | exact Hex |].
      apply HW, Hp.
Qed.

Lemma wf_inv_run n perm r0 sched tr s :
  Forall in_range perm -> length r0 = Z.to_nat DATA_LENGTH ->
  run sched (init n perm r0) = Some (tr, s) ->
  wf_inv s /\ Forall good_event tr.
Proof.
  intros Hr Hl. apply (run_invariant wf_inv good_event wf_inv_step).
  unfold wf_inv. simpl. refine (conj _ (conj _ (conj _ (conj _ _)))); auto.
  apply Forall_replicate. exact I.
Qed.

(** From every state that satisfies the invariants the threads can be run to
    their end, without any spurious wake-up. *)
Lemma completion (k : nat) (s : State) :
  (potential s <= k)%nat -> sync_inv s -> wf_inv s ->
  exists sched tr s',
    spurious_count sched = 0%nat /\ run sched s = Some (tr, s')
    /\ joined s' = true.
Proof.
  revert s. induction k as [|k IH]; intros s Hk Hsync Hwf.
  - exfalso. destruct Hwf as (_ & _ & _ & _ & Ha).
    unfold potential in Hk. rewrite Ha in Hk. lia.
  - destruct (joined s) eqn:Hj.
    + exists [], [], s. auto.
    + pose proof Hwf as (_ & _ & _ & _ & Ha).
      destruct (progress s Hsync Ha Hj) as (a & e & s1 & Hns & Hs).
      destruct (sync_inv_step _ _ _ _ Hsync Hs) as [Hsync1 _].
      destruct (wf_inv_step _ _ _ _ Hwf Hs) as [Hwf1 _].
      destruct Hsync as (_ & _ & _ & HH & _).
      pose proof (potential_step _ _ _ _ HH Hs) as Hp. rewrite Hns in Hp.
      destruct (IH s1) as (sched & tr & s' & Hsp & Hrun & Hj'); [lia | auto ..].
      exists (a :: sched), (e :: tr), s'.
      refine (conj _ (conj _ Hj')).
      * unfold spurious_count in *. rewrite filter_cons.
        rewrite decide_False by (rewrite Hns; discriminate). exact Hsp.
      * apply run_cons. eauto 6.
Qed.

(** C8. Termination: for every number [n] of consumers and every producer
    sequence over the positions, a run of [k] steps that contains [w]
    spurious wake-ups satisfies [k <= 9 * length perm + 5 * n + 4 + 3 * w], so
    a run with finitely many spurious wake-ups is finite; and as long as not
    every thread has ended, some thread can run a statement (no thread waits
    for a wake-up that never comes), and the threads can be run on from there
    until all of them have ended.  A run that cannot be continued has
    therefore ended with every consumer out of its loop. *)
Theorem consumers_terminate
    (n : nat) (perm results0 : list Z) (sched : list action)
    (tr : list event) (s : State) :
  Forall in_range perm ->
  length results0 = Z.to_nat DATA_LENGTH ->
  run sched (init n perm results0) = Some (tr, s) ->
  (length sched <= 9 * length perm + 5 * n + 4 + 3 * spurious_count sched)%nat
  /\ (joined s = true
      \/ exists a e s', is_spurious a = false /\ step a s = Some (e, s'))
  /\ (exists sched' tr' s',
        spurious_count sched' = 0%nat /\ run sched' s = Some (tr', s')
        /\ joined s' = true)
  /\ (joined s = true ->
      length (consumers s) = n /\ Forall (fun c => c = CDone) (consumers s)).
Proof.
  intros Hr Hl Hrun.
  destruct (sync_inv_run _ _ _ _ _ _ Hrun) as [Hsync _].
  destruct (wf_inv_run _ _ _ _ _ _ Hr Hl Hrun) as [Hwf _].
  pose proof Hwf as (_ & _ & _ & _ & Ha).
  pose proof (consumers_length_run _ _ _ _ Hrun) as Hlen.
  simpl in Hlen. rewrite length_replicate in Hlen.
  refine (conj _ (conj _ (conj _ _))).
  - pose proof (potential_run _ _ _ _ (sync_inv_init n perm results0) Hrun) as Hp.
    unfold potential at 2 in Hp. simpl in Hp.
    rewrite length_replicate, sum_replicate in Hp. simpl in Hp. lia.
  - destruct (joined s) eqn:Hj; [left; reflexivity | right].
    apply progress; assumption.
  - apply (completion (potential s)); auto.
  - intros Hj. split; [exact Hlen |].
    unfold joined in Hj. apply andb_true_iff in Hj as [_ Hc].
    apply Forall_forall. intros c Hin. rewrite forallb_forall in Hc.
    apply list_elem_of_In in Hin. specialize (Hc _ Hin).
    destruct c; try discriminate. reflexivity.
Qed.

(** C9. Stores stay inside the result array.  [random_permutation
    DATA_LENGTH] has no duplicates and contains exactly the integers of
    [0, DATA_LENGTH); in every run of [main] the entries pushed are an
    initial part of the entries of that permutation, so no position occurs in
    two of them; every entry pushed or popped has its position in
    [0, DATA_LENGTH); every store hits a position in [0, DATA_LENGTH) of the
    array, whose length stays [DATA_LENGTH]; and no step aborts. *)
Theorem result_writes_in_bounds
    (random_shuffle : list Z -> list Z) (results0 : list Z)
    (sched : list action) (tr : list event) (s : State) :
  (forall l, Permutation l (random_shuffle l)) ->
  length results0 = Z.to_nat DATA_LENGTH ->
  run sched (main_init random_shuffle results0) = Some (tr, s) ->
  NoDup (random_permutation random_shuffle DATA_LENGTH)
  /\ (forall p, p ∈ random_permutation random_shuffle DATA_LENGTH
                <-> 0 <= p < DATA_LENGTH)
  /\ (exists rest,
        map entry_of (random_permutation random_shuffle DATA_LENGTH)
        = pushed tr ++ rest)
  /\ NoDup (map position (pushed tr))
  /\ Forall
       (fun e =>
          match e with
          | EvWrite _ p _ => 0 <= p < DATA_LENGTH
          | EvPush be | EvPop _ be => 0 <= position be < DATA_LENGTH
          | EvAbort _ => False
          | _ => True
          end) tr
  /\ length (results s) = Z.to_nat DATA_LENGTH
  /\ aborted s = false.
Proof.
  intros Hshuffle Hl Hrun. unfold main_init in Hrun.
  pose proof (random_permutation_covers _ Hshuffle) as Hcov.
  destruct (data_inv_run _ _ _ _ _ _ Hcov Hl Hrun)
    as [[(_ & _ & _ & Hlen & Ha) _] Hev].
  pose proof (producer_run_todo _ _ _ _ Hrun) as Ht. simpl in Ht.
  pose proof (random_permutation_NoDup _ Hshuffle DATA_LENGTH) as Hnd.
  refine (conj Hnd (conj _ (conj _ (conj _ (conj _ (conj Hlen Ha)))))).
  - intros p. apply random_permutation_elem, Hshuffle.
  - eauto.
  - assert (Hpos : map position
                     (map entry_of (random_permutation random_shuffle DATA_LENGTH))
                   = random_permutation random_shuffle DATA_LENGTH).
    { rewrite map_map. simpl. apply map_id. }
    rewrite Ht, map_app in Hpos. rewrite <- Hpos in Hnd.
    apply NoDup_app in Hnd as [Hnd _]. exact Hnd.
  - eapply Forall_impl; [exact Hev |].
    intros [] Hg; simpl in *; auto; apply Hg.
Qed.

(** C10. [fibonacci] is total from 1 on: it returns a value for every
    [n >= 1] (1 for [n <= 2], and for larger [n] the sum of the results of
    its two recursive calls), and its assertion fails exactly below 1.  In
    every run of [main] the assertion does not fail: every entry handed to a
    consumer has [number = DATA_START + position >= 30] with
    [position >= 0], the call a consumer is about to make returns a value,
    and no step aborts. *)
Theorem fibonacci_total_and_asserted
    (random_shuffle : list Z -> list Z) (results0 : list Z)
    (sched : list action) (tr : list event) (s : State) :
  (forall l, Permutation l (random_shuffle l)) ->
  length results0 = Z.to_nat DATA_LENGTH ->
  run sched (main_init random_shuffle results0) = Some (tr, s) ->
  (forall n, 1 <= n -> exists v, fibonacci n = Some v)
  /\ (forall n, 1 <= n <= 2 -> fibonacci n = Some 1)
  /\ (forall n, 2 < n ->
        exists a b, fibonacci (n - 1) = Some a /\ fibonacci (n - 2) = Some b
                    /\ fibonacci n = Some (int_add a b))
  /\ (forall n, n < 1 -> fibonacci n = None)
  /\ Forall
       (fun e =>
          match e with
          | EvPop _ be =>
              number be = DATA_START + position be
              /\ 0 <= position be /\ 30 <= number be
          | EvAbort _ => False
          | _ => True
          end) tr
  /\ (forall i be, consumers s !! i = Some (CWork be) ->
        number be = DATA_START + position be /\ 0 <= position be
        /\ exists v, fibonacci (number be) = Some v)
  /\ aborted s = false.
Proof.
  intros Hshuffle Hl Hrun. unfold main_init in Hrun.
  pose proof (random_permutation_covers _ Hshuffle) as Hcov.
  destruct (data_inv_run _ _ _ _ _ _ Hcov Hl Hrun)
    as [[(_ & _ & Hc & _ & Ha) _] Hev].
  refine (conj fibonacci_total
            (conj _ (conj _ (conj _ (conj _ (conj _ Ha)))))).
  - intros n Hn. rewrite fibonacci_body.
    destruct (Z_lt_dec n 1); [lia |]. destruct (Z_le_dec n 2); [reflexivity | lia].
  - intros n Hn.
    destruct (fibonacci_total (n - 1)) as [a Ha1]; [lia |].
    destruct (fibonacci_total (n - 2)) as [b Hb]; [lia |].
    exists a, b. rewrite (fibonacci_body n), Ha1, Hb.
    destruct (Z_lt_dec n 1); [lia |]. destruct (Z_le_dec n 2); [lia | auto].
  - intros n Hn. rewrite fibonacci_body.
    destruct (Z_lt_dec n 1); [reflexivity | lia].
  - eapply Forall_impl; [exact Hev |].
    intros [] Hg; simpl in *; auto.
    destruct Hg as [[Hlo _] Hn]. unfold DATA_START in *. lia.
  - intros i be Hi. pose proof (Forall_lookup_1 _ _ _ _ Hc Hi) as [[Hlo _] Hn].
    refine (conj Hn (conj Hlo _)). apply fibonacci_total.
    rewrite Hn. unfold DATA_START. lia.
Qed.

(** * The claims on concrete runs *)

Lemma results_after_join_are_fibonacci_witness :
  exists tr s,
    run example_sched (main_init (@rev Z) example_results0) = Some (tr, s)
    /\ joined s = true
    /\ at_index (results s) 0 = 832040
    /\ at_index (results s) 1 = 1346269
    /\ check_results (results s) = Some true.
Proof.
  destruct example_run as (tr & s & Hrun & Hj). exists tr, s.
  destruct (results_after_join_are_fibonacci (@rev Z) example_results0
              example_sched tr s (@Permutation_rev Z) eq_refl Hrun Hj)
    as (_ & _ & H0 & _ & H1 & _ & _ & Hc).
  auto.
Defined.

(** Two consumers, two entries: consumer 0 blocks, the producer pushes and
    wakes it, and it comes back to take the entry. *)
Definition small_sched : list action :=
  [Cons 0; Cons 0; Prod 0; Prod 0; Prod 0; Cons 0; Cons 0].

Lemma pop_waits_for_item_or_close_witness :
  exists tr s s',
    run small_sched (init 2 [1; 0] example_results0) = Some (tr, s)
    /\ step (Cons 0) s = Some (EvPop 0 (entry_of 1), s')
    /\ data (buffer s) = entry_of 1 :: data (buffer s')
    /\ consumers s' !! 0%nat = Some (CWork (entry_of 1)).
Proof.
  eassert (Hrun : run small_sched (init 2 [1; 0] example_results0)
                  = Some (_, _)) by (vm_compute; reflexivity).
  match type of Hrun with
  | _ = Some (?tr, ?s) =>
      eassert (Hstep : step (Cons 0) s = Some (EvPop 0 (entry_of 1), _))
        by (vm_compute; reflexivity);
      match type of Hstep with
      | _ = Some (_, ?s') =>
          exists tr, s, s';
          refine (conj Hrun (conj Hstep _));
          exact (proj2 (proj2 (pop_waits_for_item_or_close
                                 2 [1; 0] example_results0 small_sched tr s
                                 (Cons 0) _ s' Hrun Hstep)))
      end
  end.
Defined.

Lemma no_loss_no_duplication_witness :
  exists tr s,
    run example_sched
        (init NUM_CONSUMERS (random_permutation (@rev Z) DATA_LENGTH)
              example_results0)
    = Some (tr, s)
    /\ pushed tr = map entry_of (random_permutation (@rev Z) DATA_LENGTH)
    /\ popped tr = pushed tr
    /\ length (popped tr) = 15%nat
    /\ exit_count 0 tr = 1%nat.
Proof.
  destruct example_run as (tr & s & Hrun & Hj). exists tr, s.
  destruct (no_loss_no_duplication NUM_CONSUMERS
              (random_permutation (@rev Z) DATA_LENGTH) example_results0
              example_sched tr s ltac:(unfold NUM_CONSUMERS; lia) Hrun Hj)
    as (H1 & H2 & H3 & _ & H5).
  refine (conj Hrun (conj H1 (conj H2 (conj H3 _)))).
  apply H5. unfold NUM_CONSUMERS. lia.
Defined.

Lemma push_never_follows_close_witness :
  exists tr s,
    run example_sched
        (init NUM_CONSUMERS (random_permutation (@rev Z) DATA_LENGTH)
              example_results0)
    = Some (tr, s)
    /\ pushes_precede_close tr = true.
Proof.
  destruct example_run as (tr & s & Hrun & Hj). exists tr, s.
  split; [exact Hrun |].
  exact (proj1 (proj2 (push_never_follows_close _ _ _ _ _ _ Hrun))).
Defined.

Lemma closed_flag_is_monotone_witness :
  exists tr1 s tr2 s',
    run [Prod 0; Prod 0] (init 1 [] example_results0) = Some (tr1, s)
    /\ run [Prod 0; Cons 0; Cons 0; Cons 0] s = Some (tr2, s')
    /\ production_is_finished (buffer s) = true
    /\ production_is_finished (buffer s') = true.
Proof.
  eassert (Hrun1 : run [Prod 0; Prod 0] (init 1 [] example_results0)
                   = Some (_, _)) by (vm_compute; reflexivity).
  match type of Hrun1 with
  | _ = Some (?tr1, ?s) =>
      eassert (Hrun2 : run [Prod 0; Cons 0; Cons 0; Cons 0] s = Some (_, _))
        by (vm_compute; reflexivity);
      match type of Hrun2 with
      | _ = Some (?tr2, ?s') =>
          exists tr1, s, tr2, s';
          refine (conj Hrun1 (conj Hrun2 (conj eq_refl _)));
          exact (closed_flag_is_monotone 1 [] example_results0 _ _ tr1 tr2 s s'
                   Hrun1 Hrun2 eq_refl)
      end
  end.
Defined.

(** A buffer with one entry left and a blocked consumer. *)
Definition open_state : State :=
  mkState (mkBuffer false [entry_of 3] false) example_results0 (PLoop [])
          [CWaiting; CLoop; CWork (entry_of 5)] false.

Lemma close_idempotent_witness :
  exists s1,
    close open_state = Some s1
    /\ close s1 = Some s1
    /\ production_is_finished (buffer s1) = true.
Proof.
  eassert (Hc : close open_state = Some _) by (vm_compute; reflexivity).
  match type of Hc with
  | _ = Some ?s1 =>
      exists s1;
      destruct (close_idempotent open_state s1 Hc) as (H1 & H2 & _);
      exact (conj Hc (conj H1 H2))
  end.
Defined.

Lemma wake_up_asymmetry_witness :
  exists tr s,
    run example_sched
        (init NUM_CONSUMERS (random_permutation (@rev Z) DATA_LENGTH)
              example_results0)
    = Some (tr, s)
    /\ producer_script (random_permutation (@rev Z) DATA_LENGTH)
       = producer_events tr ++ script_from (producer_pc s).
Proof.
  destruct example_run as (tr & s & Hrun & Hj). exists tr, s.
  split; [exact Hrun |].
  exact (proj1 (wake_up_asymmetry _ _ _ _ _ _ Hrun)).
Defined.

Lemma consumers_terminate_witness :
  exists tr s,
    run example_sched
        (init NUM_CONSUMERS (random_permutation (@rev Z) DATA_LENGTH)
              example_results0)
    = Some (tr, s)
    /\ (length example_sched
        <= 9 * length (random_permutation (@rev Z) DATA_LENGTH)
           + 5 * NUM_CONSUMERS + 4 + 3 * spurious_count example_sched)%nat
    /\ (joined s = true ->
        length (consumers s) = NUM_CONSUMERS
        /\ Forall (fun c => c = CDone) (consumers s)).
Proof.
  destruct example_run as (tr & s & Hrun & Hj). exists tr, s.
  destruct (consumers_terminate NUM_CONSUMERS
              (random_permutation (@rev Z) DATA_LENGTH) example_results0
              example_sched tr s
              (proj1 (random_permutation_covers _ (@Permutation_rev Z)))
              eq_refl Hrun)
    as (H1 & _ & _ & H3).
  exact (conj Hrun (conj H1 H3)).
Defined.

Lemma result_writes_in_bounds_witness :
  exists tr s,
    run example_sched (main_init (@rev Z) example_results0) = Some (tr, s)
    /\ NoDup (map position (pushed tr))
    /\ length (results s) = Z.to_nat DATA_LENGTH
    /\ aborted s = false.
Proof.
  destruct example_run as (tr & s & Hrun & Hj). exists tr, s.
  destruct (result_writes_in_bounds (@rev Z) example_results0 example_sched
              tr s (@Permutation_rev Z) eq_refl Hrun)
    as (_ & _ & _ & H4 & _ & H6 & H7).
  exact (conj Hrun (conj H4 (conj H6 H7))).
Defined.

Lemma fibonacci_total_and_asserted_witness :
  exists tr s,
    run example_sched (main_init (@rev Z) example_results0) = Some (tr, s)
    /\ (forall n, 1 <= n -> exists v, fibonacci n = Some v)
    /\ aborted s = false.
Proof.
  destruct example_run as (tr & s & Hrun & Hj). exists tr, s.
  destruct (fibonacci_total_and_asserted (@rev Z) example_results0
              example_sched tr s (@Permutation_rev Z) eq_refl Hrun)
    as (H1 & _ & _ & _ & _ & _ & H7).
  exact (conj Hrun (conj H1 H7)).
Defined.

(** * Further properties of the program *)

(** ** [random] and the producer's pauses *)

Definition MAX_SLEEP_TIME_MS : Z := 10.
Definition CONSUMER_SLEEP_PART : Z := 4.

Definition int_sub (a b : Z) : Z := wrap (a - b).

(** [random]: [rand] is the value [std::rand()] returns.  [None] is the
    failure of [assert(min < max)]; a zero divisor (undefined in C++) is
    [None] as well.  [%] on [int] truncates, hence [Z.rem]. *)
Definition random (rand min max : Z) : option Z :=
  if decide (min < max)
  then
    let range := int_add (int_sub max min) 1 in
    if decide (range = 0) then None else Some (int_add min (Z.rem rand range))
  else None.

(** The pause before a push: [None] when an assertion of [random] fails,
    [Some None] when the producer does not sleep, [Some (Some ms)] when it
    sleeps [ms] milliseconds.  [rand1] and [rand2] are the values of the two
    calls of [std::rand()]. *)
Definition producer_sleep (rand1 rand2 : Z) : option (option Z) :=
  match random rand1 1 CONSUMER_SLEEP_PART with
  | None => None
  | Some d =>
      if decide (d <> 1)
      then match random rand2 1 MAX_SLEEP_TIME_MS with
           | None => None
           | Some ms => Some (Some ms)
           end
      else Some None
  end.

Lemma wrap_small (z : Z) : - 2 ^ 31 <= z < 2 ^ 31 -> wrap z = z.
Proof. intros Hz. unfold wrap. rewrite Z.mod_small; lia. Qed.

Lemma random_value (rand min max : Z) :
  0 <= rand <= 2 ^ 31 - 1 -> - 2 ^ 31 <= min -> min < max ->
  max <= 2 ^ 31 - 1 -> max - min + 1 <= 2 ^ 31 - 1 ->
  random rand min max = Some (min + rand mod (max - min + 1)).
Proof.
  intros Hr Hmin Hlt Hmax Hrange. unfold random, int_add, int_sub.
  destruct (decide (min < max)); [| lia].
  rewrite (wrap_small (max - min)) by lia.
  rewrite (wrap_small (max - min + 1)) by lia.
  destruct (decide (max - min + 1 = 0)); [lia |].
  rewrite Z.rem_mod_nonneg by lia.
  pose proof (Z.mod_pos_bound rand (max - min + 1)).
  rewrite wrap_small by lia. reflexivity.
Qed.

(** X1. [random min max] with [min < max] and a range that fits an [int]
    returns [min + rand mod (max - min + 1)], a value between [min] and
    [max], both included; and every value between [min] and [max] is
    returned for some value of [std::rand()] below the size of the range. *)
Theorem random_in_range (rand min max : Z) :
  0 <= rand <= 2 ^ 31 - 1 -> - 2 ^ 31 <= min -> min < max ->
  max <= 2 ^ 31 - 1 -> max - min + 1 <= 2 ^ 31 - 1 ->
  (exists v, random rand min max = Some v /\ min <= v <= max)
  /\ forall v, min <= v <= max ->
       0 <= v - min <= max - min /\ random (v - min) min max = Some v.
Proof.
  intros Hr Hmin Hlt Hmax Hrange. split.
  - exists (min + rand mod (max - min + 1)).
    split; [apply random_value; assumption |].
    pose proof (Z.mod_pos_bound rand (max - min + 1)). lia.
  - intros v Hv. split; [lia |].
    rewrite random_value by lia. rewrite Z.mod_small by lia. f_equal. lia.
Qed.

Lemma random_in_range_witness :
  (exists v, random 1234567 1 10 = Some v /\ 1 <= v <= 10)
  /\ forall v, 1 <= v <= 10 ->
       0 <= v - 1 <= 10 - 1 /\ random (v - 1) 1 10 = Some v.
Proof. apply (random_in_range 1234567 1 10); lia. Defined.

(** X2. The pause of the producer never fails an assertion: for every pair of
    values of [std::rand()] it either does not sleep, exactly when the first
    value is a multiple of [CONSUMER_SLEEP_PART], or sleeps between 1 and
    [MAX_SLEEP_TIME_MS] milliseconds. *)
Theorem producer_sleep_bounded (rand1 rand2 : Z) :
  0 <= rand1 <= 2 ^ 31 - 1 -> 0 <= rand2 <= 2 ^ 31 - 1 ->
  (rand1 mod CONSUMER_SLEEP_PART = 0 /\ producer_sleep rand1 rand2 = Some None)
  \/ (rand1 mod CONSUMER_SLEEP_PART <> 0
      /\ exists ms, producer_sleep rand1 rand2 = Some (Some ms)
                    /\ 1 <= ms <= MAX_SLEEP_TIME_MS).
Proof.
  intros H1 H2. unfold producer_sleep, CONSUMER_SLEEP_PART, MAX_SLEEP_TIME_MS.
  rewrite (random_value rand1 1 4) by lia.
  rewrite (random_value rand2 1 10) by lia.
  change (4 - 1 + 1) with 4. change (10 - 1 + 1) with 10.
  pose proof (Z.mod_pos_bound rand1 4). pose proof (Z.mod_pos_bound rand2 10).
  destruct (decide (1 + rand1 mod 4 <> 1)) as [Hne | Heq].
  - right. split; [lia |]. eexists. split; [reflexivity | lia].
  - left. split; [lia | reflexivity].
Qed.

Lemma producer_sleep_bounded_witness :
  (7 mod CONSUMER_SLEEP_PART = 0 /\ producer_sleep 7 25 = Some None)
  \/ (7 mod CONSUMER_SLEEP_PART <> 0
      /\ exists ms, producer_sleep 7 25 = Some (Some ms)
                    /\ 1 <= ms <= MAX_SLEEP_TIME_MS).
Proof. apply (producer_sleep_bounded 7 25); lia. Defined.

(** ** The queue at every moment *)

(** X3. First in, first out, at every moment of every run: the entries
    handed to consumers so far, followed by the content of the buffer, are
    the entries pushed so far, in push order; and these, followed by what the
    producer still has to push, are the entries of the producer's sequence. *)
Theorem queue_is_fifo
    (n : nat) (perm results0 : list Z) (sched : list action)
    (tr : list event) (s : State) :
  run sched (init n perm results0) = Some (tr, s) ->
  popped tr ++ data (buffer s) = pushed tr
  /\ pushed tr ++ map entry_of (todo (producer_pc s)) = map entry_of perm.
Proof.
  intros Hrun. split.
  - apply (queue_run _ _ _ _ Hrun).
  - symmetry. apply (producer_run_todo _ _ _ _ Hrun).
Qed.

(** Two entries pushed, the first one taken and in work. *)
Definition busy_sched : list action :=
  [Prod 0; Prod 0; Prod 0; Prod 0; Prod 0; Cons 1; Cons 1; Cons 1].

Lemma queue_is_fifo_witness :
  exists tr s,
    run busy_sched (init 2 [4; 2; 9] example_results0) = Some (tr, s)
    /\ popped tr ++ data (buffer s) = pushed tr
    /\ pushed tr ++ map entry_of (todo (producer_pc s))
       = map entry_of [4; 2; 9].
Proof.
  eassert (Hrun : run busy_sched (init 2 [4; 2; 9] example_results0)
                  = Some (_, _)) by (vm_compute; reflexivity).
  match type of Hrun with
  | _ = Some (?tr, ?s) =>
      exists tr, s;
      exact (conj Hrun (queue_is_fifo 2 [4; 2; 9] example_results0 busy_sched
                          tr s Hrun))
  end.
Defined.

(** ** Mutual exclusion *)

Lemma sum_two {A} (f : A -> nat) (l : list A) (i j : nat) (a b : A) :
  l !! i = Some a -> l !! j = Some b -> i <> j ->
  (f a + f b <= sum_list_with f l)%nat.
Proof.
  revert i j. induction l as [|x l IH]; intros [|i] [|j] Hi Hj Hne;
    simpl in *; try discriminate; try congruence.
  - injection Hi as ->. apply list_elem_of_lookup_2 in Hj.
    pose proof (sum_elem f _ _ Hj). lia.
  - injection Hj as ->. apply list_elem_of_lookup_2 in Hi.
    pose proof (sum_elem f _ _ Hi). lia.
  - assert (Hne' : i <> j) by congruence.
    specialize (IH _ _ Hi Hj Hne'). lia.
Qed.

Lemma sum_positive {A} (f : A -> nat) (l : list A) :
  (0 < sum_list_with f l)%nat -> exists i x, l !! i = Some x /\ (0 < f x)%nat.
Proof.
  induction l as [|x l IH]; simpl; [lia |]. intros Hpos.
  destruct (decide (0 < f x)%nat) as [Hx | Hx].
  - exists 0%nat, x. auto.
  - destruct IH as (i & y & Hi & Hy); [lia |]. exists (S i), y. auto.
Qed.

(** X4. Mutual exclusion: in every reachable state at most one thread is
    between taking and releasing the lock.  Two consumers are never both
    there, no consumer is there together with the producer, and [mutex] is
    set exactly when some thread is there. *)
Theorem mutual_exclusion
    (n : nat) (perm results0 : list Z) (sched : list action)
    (tr : list event) (s : State) :
  run sched (init n perm results0) = Some (tr, s) ->
  (forall i j ci cj,
     consumers s !! i = Some ci -> consumers s !! j = Some cj ->
     holds_lock ci = true -> holds_lock cj = true -> i = j)
  /\ (forall i c,
        producer_holds_lock (producer_pc s) = true ->
        consumers s !! i = Some c -> holds_lock c = false)
  /\ (mutex (buffer s) = true <->
      producer_holds_lock (producer_pc s) = true
      \/ exists i c, consumers s !! i = Some c /\ holds_lock c = true).
Proof.
  intros Hrun.
  destruct (sync_inv_run _ _ _ _ _ _ Hrun) as [(_ & _ & HM & _) _].
  unfold mutex_inv, lock_owners in HM.
  set (f := fun c => weight (holds_lock c)) in *.
  assert (Hle : (weight (mutex (buffer s)) <= 1)%nat)
    by (destruct (mutex (buffer s)); simpl; lia).
  refine (conj _ (conj _ _)).
  - intros i j ci cj Hi Hj Hci Hcj.
    destruct (decide (i = j)) as [| Hne]; [assumption | exfalso].
    pose proof (sum_two f _ _ _ _ _ Hi Hj Hne) as H2.
    unfold f in H2 at 1 2. rewrite Hci, Hcj in H2. simpl in H2. lia.
  - intros i c Hp Hi. destruct (holds_lock c) eqn:Hc; [exfalso | reflexivity].
    apply list_elem_of_lookup_2 in Hi.
    pose proof (sum_elem f _ _ Hi) as H1.
    unfold f in H1 at 1. rewrite Hc in H1. rewrite Hp in HM. simpl in *. lia.
  - split.
    + intros Hm. rewrite Hm in HM. simpl in HM.
      destruct (producer_holds_lock (producer_pc s)); [auto | right].
      destruct (sum_positive f (consumers s)) as (i & c & Hi & Hc);
        [simpl in HM; lia |].
      exists i, c. split; [exact Hi |].
      unfold f in Hc. destruct (holds_lock c); [reflexivity | simpl in Hc; lia].
    + intros [Hp | (i & c & Hi & Hc)].
      * rewrite Hp in HM. destruct (mutex (buffer s)); [reflexivity |].
        simpl in HM. lia.
      * apply list_elem_of_lookup_2 in Hi.
        pose proof (sum_elem f _ _ Hi) as H1.
        unfold f in H1 at 1. rewrite Hc in H1.
        destruct (mutex (buffer s)); [reflexivity |]. simpl in *. lia.
Qed.

Lemma mutual_exclusion_witness :
  exists tr s,
    run small_sched (init 2 [1; 0] example_results0) = Some (tr, s)
    /\ (mutex (buffer s) = true <->
        producer_holds_lock (producer_pc s) = true
        \/ exists i c, consumers s !! i = Some c /\ holds_lock c = true).
Proof.
  eassert (Hrun : run small_sched (init 2 [1; 0] example_results0)
                  = Some (_, _)) by (vm_compute; reflexivity).
  match type of Hrun with
  | _ = Some (?tr, ?s) =>
      exists tr, s;
      exact (conj Hrun
               (proj2 (proj2 (mutual_exclusion 2 [1; 0] example_results0
                                small_sched tr s Hrun))))
  end.
Defined.

(** ** No lost wake-up *)

Definition awake (c : cpc) : bool :=
  match c with CWaiting | CDone => false | _ => true end.

Definition notify_pending (p : ppc) : bool :=
  match p with PNotifyOne _ => true | _ => false end.

(** While entries wait in the buffer and a consumer is blocked, either the
    [notify_one] of the last push is still to come or another consumer is
    awake. *)
Definition awake_inv (s : State) : Prop :=
  data (buffer s) <> [] -> CWaiting ∈ consumers s ->
  notify_pending (producer_pc s) = true
  \/ exists c, c ∈ consumers s /\ awake c = true.

Lemma awake_inv_step a s e s' :
  awake_inv s -> step a s = Some (e, s') -> awake_inv s'.
Proof.
  unfold awake_inv. intros HI H.
  step_cases H; intros Hd Hw; auto;
    try (right; eexists; split;
         [eapply elem_insert_new; eassumption | reflexivity]);
    try congruence; exfalso.
  all: try (apply notify_all_no_waiting in Hw; exact Hw).
  all: try (unfold wait_condition in *; destruct (data (buffer s)); congruence).
  all: apply list_elem_of_In in Hw;
    assert (Hex : existsb is_waiting (consumers s) = true)
      by (apply existsb_exists; eauto);
    congruence.
Qed.

(** X5. No lost wake-up: in every reachable state in which the buffer holds
    an entry while some consumer is blocked, either the producer stands right
    before the [notify_one] that follows its push, or some other consumer is
    awake (neither blocked nor out of its loop) and will find the entry. *)
Theorem no_lost_wakeup
    (n : nat) (perm results0 : list Z) (sched : list action)
    (tr : list event) (s : State) :
  run sched (init n perm results0) = Some (tr, s) ->
  data (buffer s) <> [] -> CWaiting ∈ consumers s ->
  (exists rest, producer_pc s = PNotifyOne rest)
  \/ exists i c, consumers s !! i = Some c /\ awake c = true.
Proof.
  intros Hrun Hd Hw.
  assert (HI : awake_inv s /\ Forall (fun _ => True) tr).
  { refine (run_invariant awake_inv (fun _ => True) _ sched
              (init n perm results0) tr s _ Hrun).
    - intros a s0 e s1 HI Hs. split; [eapply awake_inv_step; eauto | exact I].
    - intros Hne. contradiction. }
  destruct HI as [HI _]. destruct (HI Hd Hw) as [Hp | (c & Hin & Hc)].
  - left. destruct (producer_pc s); try discriminate. eauto.
  - right. apply list_elem_of_lookup in Hin as [i Hi]. eauto.
Qed.

(** Consumer 0 blocks, an entry is pushed, the [notify_one] is still to
    come. *)
Definition pushing_sched : list action := [Cons 0; Cons 0; Prod 0; Prod 0].

Lemma no_lost_wakeup_witness :
  exists tr s,
    run pushing_sched (init 1 [6] example_results0) = Some (tr, s)
    /\ data (buffer s) <> [] /\ CWaiting ∈ consumers s
    /\ ((exists rest, producer_pc s = PNotifyOne rest)
        \/ exists i c, consumers s !! i = Some c /\ awake c = true).
Proof.
  eassert (Hrun : run pushing_sched (init 1 [6] example_results0)
                  = Some (_, _)) by (vm_compute; reflexivity).
  match type of Hrun with
  | _ = Some (?tr, ?s) =>
      exists tr, s;
      assert (Hd : data (buffer s) <> []) by discriminate;
      assert (Hw : CWaiting ∈ consumers s) by (simpl; apply list_elem_of_here);
      exact (conj Hrun (conj Hd (conj Hw
               (no_lost_wakeup 1 [6] example_results0 pushing_sched tr s
                  Hrun Hd Hw))))
  end.
Defined.

(** ** Stores into the result array *)

Definition work_position (c : cpc) : list Z :=
  match c with CWork be => [position be] | _ => [] end.

(** The positions of the entries consumers are working on. *)
Definition in_flight (cs : list cpc) : list Z := flat_map work_position cs.

Definition written_of (e : event) : list Z :=
  match e with EvWrite _ p _ => [p] | _ => [] end.

(** The positions stored to, in store order. *)
Definition written (tr : list event) : list Z := flat_map written_of tr.

Lemma in_flight_insert (cs : list cpc) (i : nat) (old new : cpc) :
  cs !! i = Some old ->
  Permutation (work_position old ++ in_flight (<[i := new]> cs))
              (work_position new ++ in_flight cs).
Proof.
  unfold in_flight. revert i.
  induction cs as [|c cs IH]; intros [|i] Hi; simpl in *; try discriminate.
  - injection Hi as ->. apply Permutation_app_swap_app.
  - specialize (IH _ Hi).
    rewrite Permutation_app_swap_app, IH. apply Permutation_app_swap_app.
Qed.

Lemma in_flight_notify_all (cs : list cpc) :
  in_flight (notify_all cs) = in_flight cs.
Proof.
  unfold in_flight, notify_all.
  induction cs as [|c cs IH]; simpl; [reflexivity |].
  rewrite IH. destruct c; reflexivity.
Qed.

Lemma store_step a s e s' :
  step a s = Some (e, s') ->
  Permutation (written_of e ++ in_flight (consumers s'))
              (map position (popped_of e) ++ in_flight (consumers s)).
Proof.
  intros H.
  step_cases H; rewrite ?in_flight_notify_all; try reflexivity;
    try match goal with
      | Hl : consumers s !! ?i = Some ?old
        |- context [in_flight (<[?i := ?new]> (consumers s))] =>
          pose proof (in_flight_insert _ _ _ new Hl) as Hperm; simpl in Hperm;
          try exact Hperm;
          try (symmetry; symmetry in Hperm; exact Hperm)
      end.
  all: destruct (negb _); simpl in *; try exact Hperm.
Qed.

Lemma store_run sched s tr s' :
  run sched s = Some (tr, s') ->
  Permutation (written tr ++ in_flight (consumers s'))
              (map position (popped tr) ++ in_flight (consumers s)).
Proof.
  revert s tr. induction sched as [|a sched IH]; intros s tr Hrun.
  - injection Hrun as <- <-. reflexivity.
  - apply run_cons in Hrun as (e & s1 & tr1 & Hs & Hr & ->).
    unfold written, popped in *. simpl.
    rewrite map_app, <- !app_assoc, (IH _ _ Hr).
    rewrite Permutation_app_swap_app, (store_step _ _ _ _ Hs).
    apply Permutation_app_swap_app.
Qed.

Lemma in_flight_init n perm r0 : in_flight (consumers (init n perm r0)) = [].
Proof.
  simpl. unfold in_flight. induction n as [|k IH]; [reflexivity | exact IH].
Qed.

Lemma in_flight_done (cs : list cpc) :
  Forall (fun c => c = CDone) cs -> in_flight cs = [].
Proof.
  unfold in_flight. induction 1 as [|c cs -> _ IH]; [reflexivity | exact IH].
Qed.

(** X6. Disjoint stores: in every run over a producer sequence without
    duplicates, the positions already stored to together with the positions
    of the entries consumers are working on contain no position twice, and
    all of them come from the producer's sequence.  So no two consumers ever
    work on the same slot, and no slot is stored to twice. *)
Theorem stores_are_disjoint
    (n : nat) (perm results0 : list Z) (sched : list action)
    (tr : list event) (s : State) :
  NoDup perm ->
  run sched (init n perm results0) = Some (tr, s) ->
  NoDup (written tr ++ in_flight (consumers s))
  /\ forall p, p ∈ written tr ++ in_flight (consumers s) -> p ∈ perm.
Proof.
  intros Hnd Hrun.
  pose proof (store_run _ _ _ _ Hrun) as Hperm.
  rewrite in_flight_init, app_nil_r in Hperm.
  pose proof (queue_run _ _ _ _ Hrun) as Hq.
  pose proof (producer_run_todo _ _ _ _ Hrun) as Ht. simpl in Hq, Ht.
  assert (Hpos : map position (map entry_of perm) = perm).
  { rewrite map_map. simpl. apply map_id. }
  rewrite Ht, <- Hq, !map_app in Hpos.
  split.
  - rewrite Hperm. rewrite <- Hpos in Hnd.
    rewrite <- !app_assoc in Hnd. apply NoDup_app in Hnd as [Hnd _]. exact Hnd.
  - intros p Hp. rewrite Hperm in Hp. rewrite <- Hpos.
    rewrite <- !app_assoc. apply elem_of_app. left. exact Hp.
Qed.

Lemma stores_are_disjoint_witness :
  exists tr s,
    run example_sched
        (init NUM_CONSUMERS (random_permutation (@rev Z) DATA_LENGTH)
              example_results0)
    = Some (tr, s)
    /\ NoDup (written tr ++ in_flight (consumers s)).
Proof.
  destruct example_run as (tr & s & Hrun & Hj). exists tr, s.
  split; [exact Hrun |].
  exact (proj1 (stores_are_disjoint NUM_CONSUMERS _ example_results0
                  example_sched tr s
                  (random_permutation_NoDup _ (@Permutation_rev Z) DATA_LENGTH)
                  Hrun)).
Defined.

(** X7. Every slot is stored to exactly once: in a run of at least one
    consumer that ends with all threads joined, the positions stored to are a
    rearrangement of the producer's sequence. *)
Theorem every_slot_written_once
    (n : nat) (perm results0 : list Z) (sched : list action)
    (tr : list event) (s : State) :
  (1 <= n)%nat ->
  run sched (init n perm results0) = Some (tr, s) ->
  joined s = true ->
  Permutation (written tr) perm.
Proof.
  intros Hn Hrun Hj.
  pose proof (store_run _ _ _ _ Hrun) as Hperm.
  rewrite in_flight_init, app_nil_r in Hperm.
  destruct (sync_inv_run _ _ _ _ _ _ Hrun) as [(_ & HD & _) _].
  pose proof (consumers_length_run _ _ _ _ Hrun) as Hlen.
  simpl in Hlen. rewrite length_replicate in Hlen.
  destruct (joined_drained s HD) as (Hp & Hd & Hall); [lia | exact Hj |].
  rewrite (in_flight_done _ Hall), app_nil_r in Hperm. rewrite Hperm.
  pose proof (queue_run _ _ _ _ Hrun) as Hq.
  pose proof (producer_run_todo _ _ _ _ Hrun) as Ht.
  rewrite Hd in Hq. rewrite Hp in Ht. simpl in Hq, Ht.
  rewrite app_nil_r in Hq, Ht. rewrite Hq, <- Ht, map_map. simpl.
  rewrite map_id. reflexivity.
Qed.

Lemma every_slot_written_once_witness :
  exists tr s,
    run example_sched
        (init NUM_CONSUMERS (random_permutation (@rev Z) DATA_LENGTH)
              example_results0)
    = Some (tr, s)
    /\ Permutation (written tr) (random_permutation (@rev Z) DATA_LENGTH).
Proof.
  destruct example_run as (tr & s & Hrun & Hj). exists tr, s.
  split; [exact Hrun |].
  exact (every_slot_written_once NUM_CONSUMERS _ example_results0
           example_sched tr s ltac:(unfold NUM_CONSUMERS; lia) Hrun Hj).
Defined.

Lemma slot_step a s e s' (p : Z) :
  wf_inv s -> in_range p -> step a s = Some (e, s') ->
  results s' !! Z.to_nat p
  = if decide (p ∈ written_of e) then fibonacci (DATA_START + p)
    else results s !! Z.to_nat p.
Proof.
  intros (_ & _ & Hc & Hl & _) Hp H.
  step_cases H; try reflexivity; try (destruct (negb _); reflexivity).
  pose proof (Forall_lookup_1 _ _ _ _ Hc E1) as [Hr Hn]. simpl in Hn.
  unfold in_range in *.
  destruct (decide (p ∈ [position be])) as [Hin | Hnin].
  - apply list_elem_of_singleton in Hin. subst p.
    rewrite <- Hn, E3. apply list_lookup_insert_eq. lia.
  - apply list_lookup_insert_ne. intros Heq.
    apply Hnin, list_elem_of_singleton. lia.
Qed.

Lemma slot_run sched s tr s' (p : Z) :
  wf_inv s -> in_range p -> run sched s = Some (tr, s') ->
  results s' !! Z.to_nat p
  = if decide (p ∈ written tr) then fibonacci (DATA_START + p)
    else results s !! Z.to_nat p.
Proof.
  revert s tr. induction sched as [|a sched IH]; intros s tr Hwf Hp Hrun.
  - injection Hrun as <- <-. reflexivity.
  - apply run_cons in Hrun as (e & s1 & tr1 & Hs & Hr & ->).
    destruct (wf_inv_step _ _ _ _ Hwf Hs) as [Hwf1 _].
    rewrite (IH _ _ Hwf1 Hp Hr), (slot_step _ _ _ _ p Hwf Hp Hs).
    unfold written. simpl. fold (written tr1).
    destruct (decide (p ∈ written tr1)) as [H1 | H1];
      destruct (decide (p ∈ written_of e)) as [H2 | H2];
      destruct (decide (p ∈ written_of e ++ written tr1)) as [H3 | H3];
      try reflexivity; exfalso; apply H3 || (apply elem_of_app in H3; tauto);
      apply elem_of_app; auto.
Qed.

(** X8. What a slot holds while the threads run: at every moment of a run
    over positions of the array, a slot that has been stored to holds the
    Fibonacci number of its key, and a slot that has not been stored to yet
    still holds what the array contained at the start. *)
Theorem slot_content
    (n : nat) (perm results0 : list Z) (sched : list action)
    (tr : list event) (s : State) (p : Z) :
  Forall in_range perm ->
  length results0 = Z.to_nat DATA_LENGTH ->
  run sched (init n perm results0) = Some (tr, s) ->
  in_range p ->
  results s !! Z.to_nat p
  = if decide (p ∈ written tr) then fibonacci (DATA_START + p)
    else results0 !! Z.to_nat p.
Proof.
  intros Hr Hl Hrun Hp.
  apply (slot_run _ _ _ _ p) with (3 := Hrun); [| exact Hp].
  unfold wf_inv. simpl. refine (conj _ (conj _ (conj _ (conj _ _)))); auto.
  apply Forall_replicate. exact I.
Qed.

(** Three entries pushed one after the other; consumer 1 takes the first one
    and stores its result. *)
Definition work_sched : list action :=
  [Prod 0; Prod 0; Prod 0; Prod 0; Prod 0; Cons 1; Cons 1; Cons 1; Cons 1].

Lemma work_run :
  exists tr s,
    run work_sched (init 2 [4; 2; 9] example_results0) = Some (tr, s)
    /\ written tr = [4].
Proof.
  eexists. eexists. split.
  - unfold work_sched. repeat run_step. reflexivity.
  - reflexivity.
Qed.

Lemma slot_content_witness :
  exists tr s,
    run work_sched (init 2 [4; 2; 9] example_results0) = Some (tr, s)
    /\ written tr = [4]
    /\ results s !! Z.to_nat 4 = fibonacci (DATA_START + 4)
    /\ results s !! Z.to_nat 2 = example_results0 !! Z.to_nat 2.
Proof.
  destruct work_run as (tr & s & Hrun & Hw). exists tr, s.
  assert (Hperm : Forall in_range [4; 2; 9]).
  { repeat constructor; unfold DATA_LENGTH, DATA_END, DATA_START; lia. }
  assert (H4 : in_range 4) by (inversion Hperm; assumption).
  assert (H2 : in_range 2)
    by (unfold in_range, DATA_LENGTH, DATA_END, DATA_START; lia).
  pose proof (slot_content 2 [4; 2; 9] example_results0 work_sched tr s 4
                Hperm eq_refl Hrun H4) as Hs4.
  pose proof (slot_content 2 [4; 2; 9] example_results0 work_sched tr s 2
                Hperm eq_refl Hrun H2) as Hs2.
  rewrite Hw in Hs4, Hs2.
  exact (conj Hrun (conj Hw (conj Hs4 Hs2))).
Defined.

(** ** The assertions of [main] *)

(** Uses an equation between [int_add] of two known numbers and a slot. *)
Ltac next_slot :=
  match goal with
  | H : int_add ?a ?b = ?z |- _ =>
      is_var z; tryif first [is_var a | is_var b] then fail
      else (vm_compute in H; subst z)
  end.

(** X9. The assertions of [main] never abort inside [fibonacci], and they
    accept an array of [DATA_LENGTH] slots exactly when it is the array of
    the Fibonacci numbers of the keys 30 to 44: the first two slots are
    compared with [fibonacci] and pin down all the others through the
    recurrence. *)
Theorem check_results_exact (r : list Z) :
  length r = Z.to_nat DATA_LENGTH ->
  (exists ok, check_results r = Some ok)
  /\ (check_results r = Some true <-> r = expected_results).
Proof.
  intros Hl. unfold check_results. rewrite !fibonacci_iter.
  replace (fib_iter DATA_START) with (Some 832040) by (vm_compute; reflexivity).
  replace (fib_iter (DATA_START + 1)) with (Some 1346269)
    by (vm_compute; reflexivity).
  split; [eauto |]. split.
  - intros H. injection H as H.
    do 16 (destruct r as [| ? r]; try discriminate Hl).
    unfold recurrence_ok, at_index in H. cbv -[int_add Z.eqb andb] in H.
    repeat (apply andb_true_iff in H as [? H]).
    repeat match goal with
           | H' : andb _ _ = true |- _ => apply andb_true_iff in H' as [? ?]
           end.
    repeat match goal with
           | H' : (_ =? _) = true |- _ => apply Z.eqb_eq in H'
           end.
    subst. repeat next_slot. reflexivity.
  - intros ->. vm_compute. reflexivity.
Qed.

Lemma check_results_exact_witness :
  (exists ok, check_results example_results0 = Some ok)
  /\ (check_results example_results0 = Some true
      <-> example_results0 = expected_results).
Proof. apply (check_results_exact example_results0). reflexivity. Defined.

(** ** [fibonacci] and the range of [int] *)

(** The Fibonacci numbers over the integers, without any bound:
    [fib_exact 1 = fib_exact 2 = 1]. *)
Fixpoint fib_exact (k : nat) : Z :=
  match k with
  | O => 0
  | S k' => match k' with
            | O => 1
            | S k'' => fib_exact k' + fib_exact k''
            end
  end.

Fixpoint fib_exact_pair (k : nat) : Z * Z :=
  match k with
  | O => (1, 1)
  | S k' => let '(a, b) := fib_exact_pair k' in (b, b + a)
  end.

Lemma fib_exact_pair_spec (k : nat) :
  fib_exact_pair k = (fib_exact (S k), fib_exact (S (S k))).
Proof.
  induction k as [|k IH]; [reflexivity |].
  change (fib_exact_pair (S k))
    with (let '(a, b) := fib_exact_pair k in (b, b + a)).
  rewrite IH. reflexivity.
Qed.

Definition fits_int (k : nat) : bool :=
  let '(a, b) := fib_pair k in
  let '(c, d) := fib_exact_pair k in
  (a =? c) && (1 <=? c) && (c <=? 2 ^ 31 - 1).

Lemma fits_int_upto_45 : forallb fits_int (seq 0 46) = true.
Proof. vm_compute. reflexivity. Qed.

(** X10. For every [n] from 1 to 46, [fibonacci n] is the exact Fibonacci
    number: no addition overflows the [int], and the result lies between 1
    and [2^31 - 1].  47 is the first argument whose Fibonacci number does not
    fit. *)
Theorem fibonacci_fits_int (n : Z) :
  1 <= n <= 46 ->
  fibonacci n = Some (fib_exact (Z.to_nat n))
  /\ 1 <= fib_exact (Z.to_nat n) <= 2 ^ 31 - 1
  /\ 2 ^ 31 - 1 < fib_exact 47.
Proof.
  intros Hn.
  assert (Hk : In (Z.to_nat (n - 1)) (seq 0 46)) by (apply in_seq; lia).
  pose proof fits_int_upto_45 as Hall. rewrite forallb_forall in Hall.
  specialize (Hall _ Hk). unfold fits_int in Hall.
  rewrite fib_exact_pair_spec in Hall.
  replace (S (Z.to_nat (n - 1))) with (Z.to_nat n) in Hall by lia.
  destruct (fib_pair (Z.to_nat (n - 1))) as [a b] eqn:Hp.
  apply andb_true_iff in Hall as [Hall Hhi].
  apply andb_true_iff in Hall as [Heq Hlo].
  apply Z.eqb_eq in Heq. apply Z.leb_le in Hlo, Hhi.
  refine (conj _ (conj (conj Hlo Hhi) _)).
  - rewrite fibonacci_iter. unfold fib_iter.
    destruct (Z_lt_dec n 1); [lia |]. rewrite Hp. simpl. congruence.
  - assert (H47 : fst (fib_exact_pair 46) = fib_exact 47)
      by (rewrite fib_exact_pair_spec; reflexivity).
    rewrite <- H47. vm_compute. reflexivity.
Qed.

Lemma fibonacci_fits_int_witness :
  fibonacci 44 = Some (fib_exact (Z.to_nat 44))
  /\ 1 <= fib_exact (Z.to_nat 44) <= 2 ^ 31 - 1
  /\ 2 ^ 31 - 1 < fib_exact 47.
Proof. apply (fibonacci_fits_int 44). lia. Defined.

(** ** Nothing to produce *)

Definition idle (r0 : list Z) (s : State) : Prop :=
  results s = r0 /\ data (buffer s) = [] /\ todo (producer_pc s) = []
  /\ Forall (fun c => work_position c = []) (consumers s)
  /\ aborted s = false.

Definition quiet (e : event) : Prop :=
  match e with
  | EvPush _ | EvPop _ _ | EvWrite _ _ _ | EvAbort _ => False
  | _ => True
  end.

Lemma idle_step r0 a s e s' :
  idle r0 s -> step a s = Some (e, s') -> idle r0 s' /\ quiet e.
Proof.
  unfold idle. intros (Hr & Hd & Ht & Hc & Ha) H.
  step_cases H; try discriminate;
    try (pose proof (Forall_lookup_1 _ _ _ _ Hc E1) as Hw; discriminate Hw);
    refine (conj (conj _ (conj _ (conj _ (conj _ _)))) _);
    simpl; auto; try (destruct (negb _); exact I);
    try (apply Forall_insert; [assumption | reflexivity]).
  unfold notify_all. apply Forall_fmap.
  eapply Forall_impl; [exact Hc |]. intros [] Hw; simpl; auto.
Qed.

(** X11. With an empty producer sequence nothing is ever pushed, popped or
    stored: in every run, for any number of consumers, the result array keeps
    its initial content, the buffer stays empty and no step aborts. *)
Theorem empty_production
    (n : nat) (results0 : list Z) (sched : list action)
    (tr : list event) (s : State) :
  run sched (init n [] results0) = Some (tr, s) ->
  results s = results0 /\ data (buffer s) = [] /\ aborted s = false
  /\ Forall quiet tr.
Proof.
  intros Hrun.
  destruct (run_invariant (idle results0) quiet (idle_step results0)
              sched (init n [] results0) tr s) as [(Hr & Hd & _ & _ & Ha) Hq];
    [| exact Hrun | auto].
  unfold idle. simpl. refine (conj _ (conj _ (conj _ (conj _ _)))); auto.
  apply Forall_replicate. reflexivity.
Qed.

(** Three consumers, no entry: two block and are released by [notify_all],
    the third arrives after the close; all leave. *)
Definition empty_sched : list action :=
  [Cons 0; Cons 0; Cons 1; Cons 1; Prod 0; Prod 0; Prod 0;
   Cons 2; Cons 2; Cons 2; Cons 0; Cons 0; Cons 0; Cons 1; Cons 1; Cons 1].

Lemma empty_production_witness :
  exists tr s,
    run empty_sched (init 3 [] example_results0) = Some (tr, s)
    /\ joined s = true
    /\ results s = example_results0 /\ Forall quiet tr.
Proof.
  eassert (Hrun : run empty_sched (init 3 [] example_results0)
                  = Some (_, _)) by (vm_compute; reflexivity).
  match type of Hrun with
  | _ = Some (?tr, ?s) =>
      exists tr, s;
      destruct (empty_production 3 example_results0 empty_sched tr s Hrun)
        as (Hr & _ & _ & Hq);
      exact (conj Hrun (conj eq_refl (conj Hr Hq)))
  end.
Defined.

(** ** [random_permutation] for any length *)

(** X12. For every length, also zero or negative, [random_permutation]
    returns a sequence of [max length 0] elements that contains every integer
    of [0, length) exactly once and nothing else; for a length that is not
    positive it is empty. *)
Theorem random_permutation_is_permutation
    (random_shuffle : list Z -> list Z) (len : Z) :
  (forall l, Permutation l (random_shuffle l)) ->
  length (random_permutation random_shuffle len) = Z.to_nat len
  /\ NoDup (random_permutation random_shuffle len)
  /\ (forall p, p ∈ random_permutation random_shuffle len <-> 0 <= p < len)
  /\ (len <= 0 -> random_permutation random_shuffle len = []).
Proof.
  intros Hshuffle.
  assert (Hlen : length (random_permutation random_shuffle len) = Z.to_nat len).
  { unfold random_permutation. rewrite <- (Hshuffle (iota len)).
    unfold iota. rewrite length_map, length_seq. reflexivity. }
  refine (conj Hlen (conj _ (conj _ _))).
  - apply random_permutation_NoDup, Hshuffle.
  - intros p. apply random_permutation_elem, Hshuffle.
  - intros Hle. apply length_zero_iff_nil. rewrite Hlen. lia.
Qed.

Lemma random_permutation_is_permutation_witness :
  length (random_permutation (@rev Z) 6) = Z.to_nat 6
  /\ NoDup (random_permutation (@rev Z) 6)
  /\ (forall p, p ∈ random_permutation (@rev Z) 6 <-> 0 <= p < 6)
  /\ (6 <= 0 -> random_permutation (@rev Z) 6 = []).
Proof.
  apply (random_permutation_is_permutation (@rev Z) 6 (@Permutation_rev Z)).
Defined.
